(** * A shallow embedding of VIT_TORCH.py

    The Vision Transformer of [VIT_TORCH.py]: patch extraction, sinusoidal
    positional embeddings, multi-head self-attention, the transformer block,
    the model's constructor and its forward pass.

    Tensors are nested lists (outermost axis first).  The image batch also
    carries the shape the source reads from [images.shape], because an empty
    nested list has forgotten its inner dimensions.  Sizes, counts and
    indices are natural numbers.  Scalars are real numbers: the rounding of
    the floating-point kernels is not modelled.  Code that raises returns
    [Err]; code that draws random initial values reads them from a stream
    that is threaded through the constructors. *)

From Stdlib Require Import Reals Lra Lia.
From stdpp Require Import base list strings.

(** ** Exceptions *)

Inductive error : Type :=
  | AssertionError
  | ZeroDivisionError
  | RuntimeError
  | IndexError
  | TypeError.

Inductive result (A : Type) : Type :=
  | Ok (a : A)
  | Err (e : error).
Arguments Ok {A} a.
Arguments Err {A} e.

#[global] Instance result_ret : MRet result := @Ok.
#[global] Instance result_bind : MBind result := λ A B f m,
  match m with Ok a => f a | Err e => Err e end.
#[global] Instance result_fmap : FMap result := λ A B f m,
  match m with Ok a => Ok (f a) | Err e => Err e end.

(** The Python statement [assert c]. *)
Definition assert (c : bool) : result unit :=
  if c then Ok tt else Err AssertionError.

(** A [for] loop whose body may raise: [s] is the state the body updates.
    (A list comprehension whose element may raise is stdpp's [mapM].) *)
Fixpoint foldM {S B : Type} (body : S → B → result S) (s : S) (l : list B)
  : result S :=
  match l with
  | [] => Ok s
  | x :: l' => s' ← body s x; foldM body s' l'
  end.

(** Python's [%] and [//] on natural numbers. *)
Definition pymod (a b : nat) : result nat :=
  if b =? 0 then Err ZeroDivisionError else Ok (a mod b).
Definition pyfloordiv (a b : nat) : result nat :=
  if b =? 0 then Err ZeroDivisionError else Ok (a / b).

(** [l[i]] *)
Definition getitem {B : Type} (l : list B) (i : nat) : result B :=
  match l !! i with Some x => Ok x | None => Err IndexError end.

(** Python's [enumerate]. *)
Definition enumerate {B : Type} (l : list B) : list (nat * B) :=
  zip (seq 0 (length l)) l.

(** ** Tensor primitives used by [patchify] *)

(** A rank-4 tensor with its shape [(n, c, h, w)]. *)
Record Tensor4 (A : Type) : Type := mkTensor4 {
  shape4 : nat * nat * nat * nat;
  data4 : list (list (list (list A)))
}.
Arguments mkTensor4 {A} _ _.
Arguments shape4 {A} _.
Arguments data4 {A} _.

(** The data has the shape the tensor announces. *)
Definition wf_Tensor4 {A : Type} (t : Tensor4 A) : Prop :=
  let '(n, c, h, w) := shape4 t in
  length (data4 t) = n ∧
  Forall (λ image, length image = c ∧
    Forall (λ chan, length chan = h ∧
      Forall (λ row : list A, length row = w) chan) image) (data4 t).

Section patchify.
Context {A : Type} (zero : A).

(** [torch.zeros(n, m, d)] *)
Definition zeros3 (n m d : nat) : list (list (list A)) :=
  replicate n (replicate m (replicate d zero)).

(** [l[a:b]] for non-negative bounds: indices are clamped to the length. *)
Definition slice {B : Type} (a b : nat) (l : list B) : list B :=
  take (b - a) (drop a l).

(** [image[:, r0:r1, c0:c1]] *)
Definition crop (image : list (list (list A))) (r0 r1 c0 c1 : nat)
  : list (list (list A)) :=
  (λ chan, slice c0 c1 <$> slice r0 r1 chan) <$> image.

(** [t.flatten()] of a rank-3 tensor: channel, then row, then column. *)
Definition flatten (t : list (list (list A))) : list A :=
  mjoin (mjoin <$> t).

(** The value stored by [dst[...] = src] for rank-1 [dst] and [src]: the
    source is expanded to the destination, which is possible when the
    sizes agree or the source has one element. *)
Definition copy_into (dst src : list A) : result (list A) :=
  if decide (length src = length dst) then Ok src
  else match src with
       | [x] => Ok (replicate (length dst) x)
       | _ => Err RuntimeError
       end.

(** [patches[idx, k] = src] *)
Definition setitem2 (patches : list (list (list A))) (idx k : nat)
    (src : list A) : result (list (list (list A))) :=
  match patches !! idx with
  | None => Err IndexError
  | Some seq_ =>
      match seq_ !! k with
      | None => Err IndexError
      | Some slot =>
          new ← copy_into slot src;
          Ok (<[idx := <[k := new]> seq_]> patches)
      end
  end.

(** The patch of grid cell [(i, j)], flattened. *)
Definition patch_at (image : list (list (list A))) (patch_size i j : nat)
  : list A :=
  flatten (crop image (i * patch_size) ((i + 1) * patch_size)
                      (j * patch_size) ((j + 1) * patch_size)).

Definition patchify (images : Tensor4 A) (n_patches : nat)
  : result (list (list (list A))) :=
  let '(n, c, h, w) := shape4 images in
  _ ← assert (h =? w);
  patch_d ← pyfloordiv (h * w) (n_patches ^ 2);
  let patches := zeros3 n (n_patches ^ 2) patch_d in
  patch_size ← pyfloordiv h n_patches;
  foldM (λ patches '(idx, image),
    foldM (λ patches i,
      foldM (λ patches j,
        let patch := patch_at image patch_size i j in
        setitem2 patches idx (i * n_patches + j) patch)
      patches (seq 0 n_patches))
    patches (seq 0 n_patches))
  patches (enumerate (data4 images)).

(** What the claim expects at image [image]: the patch of cell [(i, j)]
    at sequence position [i * n_patches + j]. *)
Definition patches_of (image : list (list (list A)))
    (patch_size n_patches : nat) : list (list A) :=
  (λ k, patch_at image patch_size (k / n_patches) (k `mod` n_patches))
    <$> seq 0 (n_patches ^ 2).

End patchify.

(** ** Real-valued tensor operations *)

#[global] Instance R_inhabited : Inhabited R := populate 0%R.

Definition sum_R (l : list R) : R := foldr Rplus 0%R l.

Definition dot (u v : list R) : R := sum_R (zip_with Rmult u v).

(** [a @ b.T]: entry [(i, j)] is the dot product of row [i] of [a] with
    row [j] of [b]. *)
Definition matmul_T (a b : list (list R)) : list (list R) :=
  (λ u, dot u <$> b) <$> a.

Definition column (c : nat) (b : list (list R)) : list R :=
  (λ r : list R, r !!! c) <$> b.

(** [a @ b] where [b] has [p] columns. *)
Definition matmul (a b : list (list R)) (p : nat) : list (list R) :=
  (λ u, (λ c, dot u (column c b)) <$> seq 0 p) <$> a.

(** [nn.Softmax(dim=-1)] on one row. *)
Definition softmax (x : list R) : list R :=
  let e := exp <$> x in (λ a, a / sum_R e)%R <$> e.

(** Elementwise [+] of two tensors of the same shape. *)
Definition tadd1 : list R → list R → list R := zip_with Rplus.
Definition tadd2 : list (list R) → list (list R) → list (list R) :=
  zip_with tadd1.
Definition tadd3 :
  list (list (list R)) → list (list (list R)) → list (list (list R)) :=
  zip_with tadd2.

(** [torch.hstack] of matrices with the same number of rows. *)
Definition hstack (ms : list (list (list R))) : result (list (list R)) :=
  match ms with
  | [] => Err RuntimeError
  | m0 :: ms' => Ok (foldl (zip_with app) m0 ms')
  end.

(** [torch.cat([torch.unsqueeze(r, dim=0) for r in rs])] and [torch.stack]:
    both refuse the empty list. *)
Definition stack {B : Type} (rs : list B) : result (list B) :=
  match rs with
  | [] => Err RuntimeError
  | _ => Ok rs
  end.

(** ** Positional embeddings *)

(** [res[i][j] = v] *)
Definition setitem_ij (res : list (list R)) (i j : nat) (v : R)
  : result (list (list R)) :=
  row ← getitem res i;
  if decide (j < length row) then Ok (<[i := <[j := v]> row]> res)
  else Err IndexError.

Definition get_positional_embeddings (sequence_legth d : nat)
  : result (list (list R)) :=
  let res := replicate sequence_legth (replicate d 1%R) in
  foldM (λ res i,
    foldM (λ res j,
      setitem_ij res i j
        (if j mod 2 =? 0
         then sin (INR i / Rpower 10000 (INR j / INR d))
         else cos (INR i / Rpower 10000 (INR (j - 1) / INR d))))
    res (seq 0 d))
  res (seq 0 sequence_legth).

(** ** Random initial values

    The framework's generator is a stream of samples.  A constructor draws
    from the front of the stream and hands the rest on; it may also raise. *)

Definition rng : Type := nat → R.

Definition gen (A : Type) : Type := rng → result (A * rng).

#[global] Instance gen_ret : MRet gen := λ A a g, Ok (a, g).
#[global] Instance gen_bind : MBind gen := λ A B f m g,
  match m g with
  | Ok (a, g') => f a g'
  | Err e => Err e
  end.

Definition lift {A : Type} (r : result A) : gen A := λ g,
  match r with Ok a => Ok (a, g) | Err e => Err e end.

(** A vector of [n] samples. *)
Definition rand (n : nat) : gen (list R) := λ g,
  Ok (g <$> seq 0 n, λ i, g (n + i)).

(** A [rows] by [cols] matrix of samples. *)
Definition rand2 (rows cols : nat) : gen (list (list R)) :=
  mapM (λ _, rand cols) (seq 0 rows).

(** ** Framework layers *)

(** [nn.Linear] *)
Module Linear.

Record t : Type := mk {
  in_features : nat;
  out_features : nat;
  weight : list (list R);
  bias : list R
}.

Definition init (in_features out_features : nat) : gen t :=
  weight ← rand2 out_features in_features;
  bias ← rand out_features;
  mret (mk in_features out_features weight bias).

(** [x @ weight.T + bias] for one input vector; the framework refuses an
    input whose width is not [in_features]. *)
Definition forward (l : t) (x : list R) : result (list R) :=
  if decide (length x = in_features l)
  then Ok (zip_with Rplus (dot x <$> weight l) (bias l))
  else Err RuntimeError.

(** The layer on a matrix and on a batch of matrices: the last axis is
    mapped, the others are kept. *)
Definition forward2 (l : t) : list (list R) → result (list (list R)) :=
  mapM (forward l).
Definition forward3 (l : t)
  : list (list (list R)) → result (list (list (list R))) :=
  mapM (forward2 l).

End Linear.

(** [nn.LayerNorm] over the last axis, with the framework's default
    [eps = 1e-5] and initial scale 1 and shift 0. *)
Module LayerNorm.

Record t : Type := mk {
  normalized_shape : nat;
  weight : list R;
  bias : list R
}.

Definition init (normalized_shape : nat) : t :=
  mk normalized_shape (replicate normalized_shape 1%R)
     (replicate normalized_shape 0%R).

Definition eps : R := (1 / 100000)%R.

Definition mean (x : list R) : R := (sum_R x / INR (length x))%R.

Definition forward (ln : t) (x : list R) : result (list R) :=
  if decide (length x = normalized_shape ln)
  then
    let mu := mean x in
    let var := mean ((λ a, (a - mu) * (a - mu))%R <$> x) in
    let xhat := (λ a, (a - mu) / sqrt (var + eps))%R <$> x in
    Ok (zip_with Rplus (zip_with Rmult xhat (weight ln)) (bias ln))
  else Err RuntimeError.

Definition forward3 (ln : t)
  : list (list (list R)) → result (list (list (list R))) :=
  mapM (mapM (forward ln)).

End LayerNorm.

(** ** Multi-head self-attention *)

Module MyMSA.

Record t : Type := mk {
  d : nat;
  n_heads : nat;
  q_mappings : list Linear.t;
  k_mappings : list Linear.t;
  v_mappings : list Linear.t;
  d_head : nat
}.

(** [MyMSA(d, n_heads)].  [int(d / n_heads)] is the exact quotient once
    the assertion has passed. *)
Definition init (d n_heads : nat) : gen t :=
  r ← lift (pymod d n_heads);
  _ ← lift (assert (r =? 0));
  let d_head := d / n_heads in
  q_mappings ← mapM (λ _, Linear.init d_head d_head) (seq 0 n_heads);
  k_mappings ← mapM (λ _, Linear.init d_head d_head) (seq 0 n_heads);
  v_mappings ← mapM (λ _, Linear.init d_head d_head) (seq 0 n_heads);
  mret (mk d n_heads q_mappings k_mappings v_mappings d_head).

(** The body of the loop over heads, for one sequence. *)
Definition head_forward (m : t) (sequence : list (list R)) (head : nat)
  : result (list (list R)) :=
  q_mapping ← getitem (q_mappings m) head;
  k_mapping ← getitem (k_mappings m) head;
  v_mapping ← getitem (v_mappings m) head;
  let seq_ :=
    slice (head * d_head m) ((head + 1) * d_head m) <$> sequence in
  q ← Linear.forward2 q_mapping seq_;
  k ← Linear.forward2 k_mapping seq_;
  v ← Linear.forward2 v_mapping seq_;
  let attention :=
    softmax <$>
      ((λ row, (λ a, a / sqrt (INR (d_head m)))%R <$> row) <$> matmul_T q k)
  in
  Ok (matmul attention v (Linear.out_features v_mapping)).

Definition forward (m : t) (sequences : list (list (list R)))
  : result (list (list (list R))) :=
  res ← mapM (λ sequence,
           seq_result ← mapM (head_forward m sequence) (seq 0 (n_heads m));
           hstack seq_result)
         sequences;
  stack res.

End MyMSA.

(** ** Transformer block *)

Module MyVitBlock.

Record t : Type := mk {
  hidden_d : nat;
  n_heads : nat;
  norm1 : LayerNorm.t;
  mhsa : MyMSA.t;
  norm2 : LayerNorm.t;
  mlp_0 : Linear.t;
  mlp_2 : Linear.t
}.

(** The default of the keyword argument [mlp_ratio]. *)
Definition default_mlp_ratio : nat := 4.

(** [MyVitBlock(hidden_d, n_heads, mlp_ratio)]: [mlp_0] and [mlp_2] are
    the linear layers at positions 0 and 2 of [self.mlp]; position 1 is
    the GELU. *)
Definition init (hidden_d n_heads mlp_ratio : nat) : gen t :=
  let norm1 := LayerNorm.init hidden_d in
  mhsa ← MyMSA.init hidden_d n_heads;
  let norm2 := LayerNorm.init hidden_d in
  mlp_0 ← Linear.init hidden_d (mlp_ratio * hidden_d);
  mlp_2 ← Linear.init (mlp_ratio * hidden_d) hidden_d;
  mret (mk hidden_d n_heads norm1 mhsa norm2 mlp_0 mlp_2).

Section forward.
(** The framework's GELU, applied elementwise. *)
Variable gelu : R → R.

(** [self.mlp(x)] *)
Definition mlp (b : t) (x : list (list (list R)))
  : result (list (list (list R))) :=
  h ← Linear.forward3 (mlp_0 b) x;
  let h := fmap (M := list) (fmap (M := list) (fmap (M := list) gelu)) h in
  Linear.forward3 (mlp_2 b) h.

Definition forward (b : t) (x : list (list (list R)))
  : result (list (list (list R))) :=
  n1 ← LayerNorm.forward3 (norm1 b) x;
  a ← MyMSA.forward (mhsa b) n1;
  let out := tadd3 x a in
  n2 ← LayerNorm.forward3 (norm2 b) out;
  f ← mlp b n2;
  let out := tadd3 out f in
  Ok out.
End forward.

End MyVitBlock.

(** ** The model *)

(** [nn.parameter.Parameter]: a tensor and its gradient-tracking flag. *)
Module Param.
Record t : Type := mk {
  data : list (list R);
  requires_grad : bool
}.
End Param.

Module Myvit.

Record t : Type := mk {
  chw : nat * nat * nat;
  n_patches : nat;
  n_bloack : nat;
  n_heads : nat;
  hidden_d : nat;
  patch_size : nat * nat;
  input_d : nat;
  linear_mapper : Linear.t;
  class_token : Param.t;
  pos_embed : Param.t;
  blocks : list MyVitBlock.t;
  mlp : Linear.t
}.

(** [Myvit.__init__].  After the two assertions [chw[1] / n_patches] and
    [chw[2] / n_patches] are exact quotients, so [patch_size] and
    [input_d] are kept as natural numbers. *)
Definition init (chw : nat * nat * nat)
    (n_patches n_blocks hidden_d n_heads out_d : nat) : gen t :=
  let '(c, h, w) := chw in
  r ← lift (pymod h n_patches);
  _ ← lift (assert (r =? 0));
  r ← lift (pymod w n_patches);
  _ ← lift (assert (r =? 0));
  let patch_size := (h / n_patches, w / n_patches) in
  let input_d := c * patch_size.1 * patch_size.2 in
  linear_mapper ← Linear.init input_d hidden_d;
  class_token ← rand2 1 hidden_d;
  let class_token := Param.mk class_token true in
  pe ← lift (get_positional_embeddings (n_patches ^ 2 + 1) hidden_d);
  let pos_embed := Param.mk pe true in
  let pos_embed := Param.mk (Param.data pos_embed) false in
  blocks ← mapM (λ _, MyVitBlock.init hidden_d n_heads
                         MyVitBlock.default_mlp_ratio) (seq 0 n_blocks);
  mlp ← Linear.init hidden_d out_d;
  mret (mk chw n_patches n_blocks n_heads hidden_d patch_size input_d
           linear_mapper class_token pos_embed blocks mlp).

(** A call [Myvit(chw, **kwargs)]: a keyword that is not a parameter of
    [__init__] is a [TypeError]; a parameter without keyword takes its
    default. *)
Definition keywords : list string :=
  ["n_patches"; "n_blocks"; "hidden_d"; "n_heads"; "out_d"]%string.

Definition kwarg (kwargs : list (string * nat)) (name : string)
    (default : nat) : nat :=
  match list_find (λ kv, kv.1 = name) kwargs with
  | Some (_, (_, v)) => v
  | None => default
  end.

Definition call (chw : nat * nat * nat) (kwargs : list (string * nat))
  : gen t :=
  _ ← lift (if forallb (λ kv : string * nat, bool_decide (kv.1 ∈ keywords)) kwargs
            then Ok tt else Err TypeError);
  init chw (kwarg kwargs "n_patches" 7) (kwarg kwargs "n_blocks" 2)
       (kwarg kwargs "hidden_d" 8) (kwarg kwargs "n_heads" 2)
       (kwarg kwargs "out_d" 10).

Section forward.
Variable gelu : R → R.

(** The first part of [forward], up to [out = tokens + pos_embed]: the
    sequences that enter the first block. *)
Definition embed (m : t) (images : Tensor4 R)
  : result (list (list (list R))) :=
  let '(n, c, h, w) := shape4 images in
  patches ← patchify 0%R images (n_patches m);
  tokens ← Linear.forward3 (linear_mapper m) patches;
  tokens ← mapM (λ i, tok ← getitem tokens i;
                       Ok (Param.data (class_token m) ++ tok))
             (seq 0 (length tokens));
  tokens ← stack tokens;
  let pos_embed := replicate n (Param.data (pos_embed m)) in
  let out := tadd3 tokens pos_embed in
  Ok out.

(** [forward]: the blocks, [out[:, 0]] and [self.mlp] follow. *)
Definition forward (m : t) (images : Tensor4 R)
  : result (list (list R)) :=
  out ← embed m images;
  out ← foldM (λ out block, MyVitBlock.forward gelu block out)
              out (blocks m);
  out ← mapM (λ s : list (list R), getitem s 0) out;
  logits ← Linear.forward2 (mlp m) out;
  Ok (fmap (M := list) softmax logits).
End forward.

End Myvit.

(** ** Training

    [main] builds the model once and then alternates forward passes and
    optimizer steps.  [forward] assigns no attribute of the model.  The
    optimizer is the framework's: [optimizer.step()] gives a new value to
    every parameter that received a gradient, and [loss.backward()] gives
    no gradient to a parameter whose [requires_grad] is [False].  [new]
    carries the values the optimizer computes, whatever they are. *)

Definition Param_step (new : list (list R)) (p : Param.t) : Param.t :=
  if Param.requires_grad p then Param.mk new true else p.

Definition optimizer_step (new m : Myvit.t) : Myvit.t :=
  Myvit.mk (Myvit.chw m) (Myvit.n_patches m) (Myvit.n_bloack m)
    (Myvit.n_heads m) (Myvit.hidden_d m) (Myvit.patch_size m)
    (Myvit.input_d m)
    (Myvit.linear_mapper new)
    (Param_step (Param.data (Myvit.class_token new)) (Myvit.class_token m))
    (Param_step (Param.data (Myvit.pos_embed new)) (Myvit.pos_embed m))
    (Myvit.blocks new)
    (Myvit.mlp new).

Inductive event : Type :=
  | Forward (images : Tensor4 R)
  | Step (new : Myvit.t).

Definition run_event (m : Myvit.t) (e : event) : Myvit.t :=
  match e with
  | Forward _ => m
  | Step new => optimizer_step new m
  end.

Definition run (m : Myvit.t) (es : list event) : Myvit.t :=
  foldl run_event m es.

(** ** Auxiliary notions for the proofs *)

(** A list that is written front to back: the first [t] cells hold their
    final value [cell k], the others still hold the initial value [z]. *)
Definition fill {X : Type} (cell : nat → X) (z : X) (M t : nat) : list X :=
  (cell <$> seq 0 t) ++ replicate (M - t) z.

(** A constructor that cannot fail and whose result satisfies [Q]. *)
Definition total {B : Type} (m : gen B) (Q : B → Prop) : Prop :=
  ∀ g, ∃ a g', m g = Ok (a, g') ∧ Q a.

(** ** Shapes *)

Definition shape2 (L d : nat) (x : list (list R)) : Prop :=
  length x = L ∧ Forall (λ row, length row = d) x.

Definition shape3 (N L d : nat) (xs : list (list (list R))) : Prop :=
  length xs = N ∧ Forall (shape2 L d) xs.

(** The parameter tensors have the shapes the constructors give them. *)
Definition Linear_shaped (i o : nat) (l : Linear.t) : Prop :=
  Linear.in_features l = i ∧ Linear.out_features l = o ∧
  shape2 o i (Linear.weight l) ∧ length (Linear.bias l) = o.

Definition LayerNorm_shaped (d : nat) (ln : LayerNorm.t) : Prop :=
  LayerNorm.normalized_shape ln = d ∧
  length (LayerNorm.weight ln) = d ∧ length (LayerNorm.bias ln) = d.

Definition MyMSA_shaped (d n_heads : nat) (m : MyMSA.t) : Prop :=
  MyMSA.d m = d ∧ MyMSA.n_heads m = n_heads ∧ 0 < n_heads ∧
  d = n_heads * MyMSA.d_head m ∧
  length (MyMSA.q_mappings m) = n_heads ∧
  length (MyMSA.k_mappings m) = n_heads ∧
  length (MyMSA.v_mappings m) = n_heads ∧
  Forall (Linear_shaped (MyMSA.d_head m) (MyMSA.d_head m)) (MyMSA.q_mappings m) ∧
  Forall (Linear_shaped (MyMSA.d_head m) (MyMSA.d_head m)) (MyMSA.k_mappings m) ∧
  Forall (Linear_shaped (MyMSA.d_head m) (MyMSA.d_head m)) (MyMSA.v_mappings m).

Definition MyVitBlock_shaped (hidden_d n_heads mlp_ratio : nat)
    (b : MyVitBlock.t) : Prop :=
  MyVitBlock.hidden_d b = hidden_d ∧ MyVitBlock.n_heads b = n_heads ∧
  LayerNorm_shaped hidden_d (MyVitBlock.norm1 b) ∧
  MyMSA_shaped hidden_d n_heads (MyVitBlock.mhsa b) ∧
  LayerNorm_shaped hidden_d (MyVitBlock.norm2 b) ∧
  Linear_shaped hidden_d (mlp_ratio * hidden_d) (MyVitBlock.mlp_0 b) ∧
  Linear_shaped (mlp_ratio * hidden_d) hidden_d (MyVitBlock.mlp_2 b).

Definition Myvit_shaped (chw : nat * nat * nat)
    (n_patches hidden_d n_heads out_d : nat) (m : Myvit.t) : Prop :=
  Myvit.chw m = chw ∧ Myvit.n_patches m = n_patches ∧
  Myvit.hidden_d m = hidden_d ∧ Myvit.n_heads m = n_heads ∧
  0 < n_patches ∧
  chw.1.2 `mod` n_patches = 0 ∧ chw.2 `mod` n_patches = 0 ∧
  Myvit.input_d m = chw.1.1 * (chw.1.2 / n_patches) * (chw.2 / n_patches) ∧
  Linear_shaped (Myvit.input_d m) hidden_d (Myvit.linear_mapper m) ∧
  shape2 1 hidden_d (Param.data (Myvit.class_token m)) ∧
  shape2 (n_patches ^ 2 + 1) hidden_d (Param.data (Myvit.pos_embed m)) ∧
  Forall (MyVitBlock_shaped hidden_d n_heads MyVitBlock.default_mlp_ratio)
         (Myvit.blocks m) ∧
  Linear_shaped hidden_d out_d (Myvit.mlp m).

(** What a constructed model satisfies. *)
Definition constructed (chw : nat * nat * nat)
    (n_patches n_blocks hidden_d n_heads out_d : nat) (m : Myvit.t) : Prop :=
  Myvit_shaped chw n_patches hidden_d n_heads out_d m ∧
  length (Myvit.blocks m) = n_blocks ∧
  Param.requires_grad (Myvit.pos_embed m) = false ∧
  get_positional_embeddings (n_patches ^ 2 + 1) hidden_d
  = Ok (Param.data (Myvit.pos_embed m)).

(** ** The components as the specification words them *)

(** Entry [(pos, dim)] of the positional table for embedding dimension [D]. *)
Definition pos_entry (pos dim D : nat) : R :=
  if Nat.even dim
  then sin (INR pos / Rpower 10000 (INR dim / INR D))
  else cos (INR pos / Rpower 10000 (INR (dim - 1) / INR D)).

(** Entry [(i, j)] of a matrix. *)
Definition entry (t : list (list R)) (i j : nat) : option R :=
  row ← t !! i; row !! j.

(** A linear map with bias on one vector. *)
Definition affine (l : Linear.t) (x : list R) : list R :=
  zip_with Rplus (dot x <$> Linear.weight l) (Linear.bias l).

(** Layer normalisation of one token over its features. *)
Definition layer_norm (ln : LayerNorm.t) (x : list R) : list R :=
  let mu := (sum_R x / INR (length x))%R in
  let var :=
    (sum_R ((λ a, (a - mu) * (a - mu))%R <$> x) / INR (length x))%R in
  zip_with Rplus
    (zip_with Rmult ((λ a, (a - mu) / sqrt (var + 1 / 100000))%R <$> x)
       (LayerNorm.weight ln))
    (LayerNorm.bias ln).

#[global] Instance Linear_inhabited : Inhabited Linear.t :=
  populate (Linear.mk 0 0 [] []).

Section attention_spec.
Variable m : MyMSA.t.

(** The contiguous sub-vector of head [h] in a token. *)
Definition head_slice (h : nat) (token : list R) : list R :=
  take (MyMSA.d_head m) (drop (h * MyMSA.d_head m) token).

Definition query (h : nat) (token : list R) : list R :=
  affine (MyMSA.q_mappings m !!! h) (head_slice h token).
Definition key (h : nat) (token : list R) : list R :=
  affine (MyMSA.k_mappings m !!! h) (head_slice h token).
Definition value (h : nat) (token : list R) : list R :=
  affine (MyMSA.v_mappings m !!! h) (head_slice h token).

(** The weights with which the token [tq] attends to every token of the
    sequence [x]: a softmax along the key axis, no mask. *)
Definition attention_weights (h : nat) (x : list (list R)) (tq : list R)
  : list R :=
  softmax ((λ tk, dot (query h tq) (key h tk)
                  / sqrt (INR (MyMSA.d_head m)))%R <$> x).

(** Output of head [h] at the position of [tq]: the weighted sum of the
    values. *)
Definition head_output (h : nat) (x : list (list R)) (tq : list R)
  : list R :=
  (λ c, sum_R (zip_with (λ w tv, w * value h tv !!! c)%R
                 (attention_weights h x tq) x))
    <$> seq 0 (MyMSA.d_head m).

(** All heads, concatenated along the feature axis, at every position. *)
Definition attention_spec (x : list (list R)) : list (list R) :=
  (λ tq, mjoin ((λ h, head_output h x tq) <$> seq 0 (MyMSA.n_heads m)))
    <$> x.
End attention_spec.

Section block_spec.
Variable gelu : R → R.
Variable b : MyVitBlock.t.

(** Linear, GELU, Linear on one token. *)
Definition mlp_spec (token : list R) : list R :=
  affine (MyVitBlock.mlp_2 b) (gelu <$> affine (MyVitBlock.mlp_0 b) token).

(** [x' = x + MHSA(LayerNorm1(x))], [out = x' + MLP(LayerNorm2(x'))]. *)
Definition block_spec (x : list (list R)) : list (list R) :=
  let x' :=
    tadd2 x (attention_spec (MyVitBlock.mhsa b)
               (layer_norm (MyVitBlock.norm1 b) <$> x)) in
  tadd2 x' ((λ token, mlp_spec (layer_norm (MyVitBlock.norm2 b) token))
              <$> x').
End block_spec.

Section forward_spec.
Variable gelu : R → R.
Variable m : Myvit.t.

(** Steps 1 to 7 of the forward pass. *)
Definition step_patchify (images : Tensor4 R)
  : result (list (list (list R))) :=
  patchify 0%R images (Myvit.n_patches m).

Definition step_embed (patches : list (list (list R)))
  : result (list (list (list R))) :=
  mapM (mapM (Linear.forward (Myvit.linear_mapper m))) patches.

Definition step_class_token (tokens : list (list (list R)))
  : list (list (list R)) :=
  (λ s, Param.data (Myvit.class_token m) ++ s) <$> tokens.

Definition step_positional (seqs : list (list (list R)))
  : list (list (list R)) :=
  (λ s, tadd2 s (Param.data (Myvit.pos_embed m))) <$> seqs.

Definition step_blocks (seqs : list (list (list R)))
  : result (list (list (list R))) :=
  foldM (λ x block, MyVitBlock.forward gelu block x) seqs (Myvit.blocks m).

Definition step_class_position (seqs : list (list (list R)))
  : result (list (list R)) :=
  mapM (λ s : list (list R), getitem s 0) seqs.

Definition step_head (cls : list (list R)) : result (list (list R)) :=
  mapM (λ v, softmax <$> Linear.forward (Myvit.mlp m) v) cls.

Definition forward_spec (images : Tensor4 R) : result (list (list R)) :=
  patches ← step_patchify images;
  tokens ← step_embed patches;
  let seqs := step_class_token tokens in
  let seqs := step_positional seqs in
  seqs ← step_blocks seqs;
  cls ← step_class_position seqs;
  step_head cls.
End forward_spec.

(** ** Concrete inputs *)

(** One 2 by 2 image with two channels. *)
Definition two_channels : Tensor4 nat :=
  mkTensor4 (1, 2, 2, 2) [[[[1; 2]; [3; 4]]; [[5; 6]; [7; 8]]]].

(** One 4 by 4 image with one channel. *)
Definition gray4 : Tensor4 nat :=
  mkTensor4 (1, 1, 4, 4)
    [[[[1; 2; 3; 4]; [5; 6; 7; 8]; [9; 10; 11; 12]; [13; 14; 15; 16]]]].

(** An attention module with two heads on tokens of width 2, and one
    sequence of two tokens. *)
Definition msa22 : MyMSA.t :=
  let l := Linear.mk 1 1 [[1%R]] [0%R] in
  MyMSA.mk 2 2 [l; l] [l; l] [l; l] 1.

Definition tokens22 : list (list (list R)) := [[[1; 2]; [3; 4]]]%R.

(** A block on tokens of width 2 with one head and expansion factor 2. *)
Definition block2 : MyVitBlock.t :=
  MyVitBlock.mk 2 1 (LayerNorm.init 2)
    (let l := Linear.mk 2 2 [[1; 0]; [0; 1]]%R [0; 0]%R in
     MyMSA.mk 2 1 [l] [l] [l] 2)
    (LayerNorm.init 2)
    (Linear.mk 2 4 [[1; 0]; [0; 1]; [1; 1]; [0; 0]]%R [0; 0; 0; 0]%R)
    (Linear.mk 4 2 [[1; 0; 0; 0]; [0; 1; 0; 0]]%R [0; 0]%R).

(** A model for 2 by 2 images with one channel: one patch, tokens of width
    2, one head, one block, three classes. *)
Definition tiny : Myvit.t :=
  Myvit.mk (1, 2, 2) 1 1 1 2 (2, 2) 4
    (Linear.mk 4 2 [[1; 0; 0; 0]; [0; 1; 0; 0]]%R [0; 0]%R)
    (Param.mk [[0; 0]]%R true)
    (Param.mk [[0; 1]; [sin 1; cos 1]]%R false)
    [MyVitBlock.mk 2 1 (LayerNorm.init 2)
       (let l := Linear.mk 2 2 [[1; 0]; [0; 1]]%R [0; 0]%R in
        MyMSA.mk 2 1 [l] [l] [l] 2)
       (LayerNorm.init 2)
       (Linear.mk 2 8 (replicate 8 [1; 0]%R) (replicate 8 0%R))
       (Linear.mk 8 2 (replicate 2 (replicate 8 1%R)) [0; 0]%R)]
    (Linear.mk 2 3 [[1; 0]; [0; 1]; [1; 1]]%R [0; 0; 0]%R).

(** Two 2 by 2 images with one channel. *)
Definition images22 : Tensor4 R :=
  mkTensor4 (2, 1, 2, 2) [[[[1; 2]; [3; 4]]]; [[[5; 6]; [7; 8]]]]%R.

(** One 1 by 1 image with one channel. *)
Definition images11 : Tensor4 R := mkTensor4 (1, 1, 1, 1) [[[[1%R]]]].

(** ** Further notions used to state what the code does *)

(** What [dst[...] = src] stores in a slot of [D] elements when the
    assignment is accepted. *)
Definition stored {A : Type} (zero : A) (D : nat) (src : list A) : list A :=
  match copy_into (replicate D zero) src with
  | Ok v => v
  | Err _ => []
  end.

(** The shape of a rank-3 tensor of patches. *)
Definition patches_shape {A : Type} (n m d : nat)
    (patches : list (list (list A))) : Prop :=
  length patches = n ∧
  Forall (λ s, length s = m ∧ Forall (λ slot, length slot = d) s) patches.

(** [images[idx, ch, y, x]] *)
Definition pixel {A : Type} (images : Tensor4 A) (idx ch y x : nat)
  : option A :=
  image ← data4 images !! idx; chan ← image !! ch; row ← chan !! y; row !! x.

(** [t[i, j, k]] of a rank-3 tensor. *)
Definition entry3 {A : Type} (t : list (list (list A))) (i j k : nat)
  : option A :=
  m ← t !! i; row ← m !! j; row !! k.

(** The blocks of a model, one after the other, on one sequence. *)
Definition blocks_spec (gelu : R → R) (bs : list MyVitBlock.t)
    (x : list (list R)) : list (list R) :=
  foldl (λ x b, block_spec gelu b x) x bs.

(** What the model computes for one image whose patches have side [s]:
    the sequence that enters the blocks, and the class distribution read
    from its position 0 after the blocks. *)
Definition image_tokens (m : Myvit.t) (s : nat)
    (image : list (list (list R))) : list (list R) :=
  tadd2 (Param.data (Myvit.class_token m) ++
         (affine (Myvit.linear_mapper m)
            <$> patches_of image s (Myvit.n_patches m)))
        (Param.data (Myvit.pos_embed m)).

Definition classify (gelu : R → R) (m : Myvit.t) (s : nat)
    (image : list (list (list R))) : list R :=
  softmax (affine (Myvit.mlp m)
             (blocks_spec gelu (Myvit.blocks m) (image_tokens m s image)
                !!! 0)).

(** ** The loss of [main]

    [nn.CrossEntropyLoss()] with class indices as targets and the default
    mean reduction: the mean over the batch of
    [- log_softmax(input[i])[target[i]]].  [None] stands for the cases in
    which the framework raises: the batch sizes differ, or a target is not
    a class. *)
Definition cross_entropy_row (x : list R) (t : nat) : option R :=
  if decide (t < length x)
  then Some (ln (sum_R (exp <$> x)) - x !!! t)%R
  else None.

Definition CrossEntropyLoss (input : list (list R)) (target : list nat)
  : option R :=
  if decide (length input = length target)
  then
    losses ← mapM (λ xt : list R * nat, cross_entropy_row xt.1 xt.2)
                  (zip input target);
    Some (sum_R losses / INR (length losses))%R
  else None.

(** [y_hat = model(x); loss = criterion(y_hat, y)], as in the training and
    the test loop of [main]. *)
Definition batch_loss (gelu : R → R) (model : Myvit.t) (x : Tensor4 R)
    (y : list nat) : option R :=
  match Myvit.forward gelu model x with
  | Ok y_hat => CrossEntropyLoss y_hat y
  | Err _ => None
  end.

(** The test loop of [main] as far as [test_loss] goes.  Under
    [torch.no_grad()] nothing updates the model, so every batch meets the
    same [model]; [test_loader] is the list of its batches (images and
    labels) and [len(test_loader)] their number.  A batch on which the model
    or the criterion raises ends the loop ([None]). *)
Definition test_loss (gelu : R → R) (model : Myvit.t)
    (test_loader : list (Tensor4 R * list nat)) : option R :=
  foldl (λ acc batch,
           test_loss ← acc;
           loss ← batch_loss gelu model batch.1 batch.2;
           Some (test_loss + loss / INR (length test_loader))%R)
        (Some 0%R) test_loader.

(** One 3 by 3 image with one channel. *)
Definition gray3 : Tensor4 nat :=
  mkTensor4 (1, 1, 3, 3) [[[[1; 2; 3]; [4; 5; 6]; [7; 8; 9]]]].

(** An empty batch of 2 by 2 images with three channels. *)
Definition empty_batch : Tensor4 R := mkTensor4 (0, 3, 2, 2) [].

(** The two tokens of [tokens22] in the other order. *)
Definition tokens22_swapped : list (list R) := [[3; 4]; [1; 2]]%R.

(** A model without blocks for 1 by 1 images with one channel: one patch,
    tokens of width 1, two classes. *)
Definition no_blocks : Myvit.t :=
  Myvit.mk (1, 1, 1) 1 0 1 1 (1, 1) 1
    (Linear.mk 1 1 [[1]]%R [0]%R)
    (Param.mk [[0]]%R true)
    (Param.mk [[0]; [sin 1]]%R false)
    []
    (Linear.mk 1 2 [[1]; [0]]%R [0; 0]%R).

(** * Facts *)

(** ** Loops and comprehensions *)

Lemma bind_Ok {B C : Type} (a : B) (f : B → result C) : Ok a ≫= f = f a.
Proof. reflexivity. Qed.

Lemma bind_Err {B C : Type} (e : error) (f : B → result C) :
  Err e ≫= f = Err e.
Proof. reflexivity. Qed.

Lemma pyfloordiv_ok (a b : nat) : b ≠ 0 → pyfloordiv a b = Ok (a / b).
Proof.
  intros Hb. unfold pyfloordiv. by destruct (Nat.eqb_spec b 0).
Qed.

Lemma pymod_ok (a b : nat) : b ≠ 0 → pymod a b = Ok (a `mod` b).
Proof.
  intros Hb. unfold pymod. by destruct (Nat.eqb_spec b 0).
Qed.

Lemma foldM_fun {St B : Type} (f : nat → St) (body : St → B → result St)
    (l : list B) :
  (∀ i x, l !! i = Some x → body (f i) x = Ok (f (S i))) →
  foldM body (f 0) l = Ok (f (length l)).
Proof.
  revert f. induction l as [|x l IH]; intros f Hstep; simpl; [done|].
  rewrite (Hstep 0 x eq_refl). simpl.
  apply (IH (λ i, f (S i))). intros i y Hy. apply (Hstep (S i) y Hy).
Qed.

Lemma foldM_inv {St B : Type} (I : nat → St → Prop)
    (body : St → B → result St) (l : list B) (s : St) :
  I 0 s →
  (∀ i x s, l !! i = Some x → I i s → ∃ s', body s x = Ok s' ∧ I (S i) s') →
  ∃ s', foldM body s l = Ok s' ∧ I (length l) s'.
Proof.
  revert I s. induction l as [|x l IH]; intros I s H0 Hstep; simpl.
  - by exists s.
  - destruct (Hstep 0 x s eq_refl H0) as (s1 & -> & H1). simpl.
    apply (IH (λ i, I (S i))); [done|].
    intros i y s2 Hy. apply (Hstep (S i) y s2 Hy).
Qed.

Lemma mapM_ok {B C : Type} (f : B → result C) (g : B → C) (l : list B) :
  Forall (λ x, f x = Ok (g x)) l → mapM f l = Ok (g <$> l).
Proof.
  induction 1 as [|x l Hx _ IH]; simpl; [done|].
  rewrite Hx. simpl. rewrite IH. done.
Qed.

Lemma mapM_Ok_inv {B C : Type} (f : B → result C) (l : list B) (k : list C) :
  mapM f l = Ok k → Forall2 (λ x y, f x = Ok y) l k.
Proof.
  revert k. induction l as [|x l IH]; simpl; intros k Hk.
  - injection Hk as <-. constructor.
  - destruct (f x) as [y|e] eqn:Hy; simpl in Hk; [|done].
    destruct (mapM f l) as [ys|e] eqn:Hys; simpl in Hk; [|done].
    injection Hk as <-. constructor; [done|]. by apply IH.
Qed.

Lemma lookup_enumerate {B : Type} (l : list B) (i idx : nat) (x : B) :
  enumerate l !! i = Some (idx, x) → idx = i ∧ l !! i = Some x.
Proof.
  unfold enumerate. rewrite lookup_zip_with_Some.
  intros (a & b & [= -> ->] & Ha & Hb).
  apply lookup_seq in Ha as [-> _]. done.
Qed.

Lemma length_enumerate {B : Type} (l : list B) :
  length (enumerate l) = length l.
Proof. unfold enumerate. rewrite length_zip_with, length_seq. lia. Qed.

(** ** Lists written front to back *)

Section fill.
Context {X : Type} (cell : nat → X) (z : X) (M : nat).

Lemma fill_0 : fill cell z M 0 = replicate M z.
Proof. unfold fill. simpl. by rewrite Nat.sub_0_r. Qed.

Lemma fill_all : fill cell z M M = cell <$> seq 0 M.
Proof. unfold fill. rewrite Nat.sub_diag. simpl. apply app_nil_r. Qed.

Lemma length_fill t : t ≤ M → length (fill cell z M t) = M.
Proof.
  intros. unfold fill.
  rewrite length_app, length_fmap, length_seq, length_replicate. lia.
Qed.

Lemma fill_lookup t : t < M → fill cell z M t !! t = Some z.
Proof.
  intros Ht. unfold fill.
  rewrite lookup_app_r by (rewrite length_fmap, length_seq; lia).
  rewrite length_fmap, length_seq, Nat.sub_diag.
  apply lookup_replicate. split; [done|lia].
Qed.

Lemma fill_next t x :
  t < M → x = cell t → <[t := x]> (fill cell z M t) = fill cell z M (S t).
Proof.
  intros Ht ->. unfold fill.
  rewrite insert_app_r_alt by (rewrite length_fmap, length_seq; lia).
  rewrite length_fmap, length_seq, Nat.sub_diag.
  replace (M - t) with (S (M - S t)) by lia.
  rewrite seq_S, fmap_app. simpl. by rewrite <- app_assoc.
Qed.
End fill.

(** ** [patchify] *)

Section patchify_facts.
Context {A : Type} (zero : A).

Lemma setitem2_same_size (patches : list (list (list A))) idx k row slot src :
  patches !! idx = Some row → row !! k = Some slot →
  length src = length slot →
  setitem2 patches idx k src = Ok (<[idx := <[k := src]> row]> patches).
Proof.
  intros Hrow Hslot Hlen. unfold setitem2, copy_into.
  rewrite Hrow, Hslot. by rewrite decide_True.
Qed.

(** The loops over [i] and [j] fill one sequence of [patches], slot after
    slot. *)
Section one_image.
Variables (cell : nat → list A) (P D : nat).
Hypothesis cell_size : ∀ k, k < P * P → length (cell k) = D.

Local Abbreviation filled := (fill cell (replicate D zero) (P * P)).

Lemma loop_j (pre post : list (list (list A))) idx i
    (src : nat → list A) :
  length pre = idx → i < P →
  (∀ j, j < P → src j = cell (i * P + j)) →
  foldM (λ patches j, setitem2 patches idx (i * P + j) (src j))
        (pre ++ filled (i * P) :: post) (seq 0 P)
  = Ok (pre ++ filled (S i * P) :: post).
Proof.
  intros Hpre Hi Hsrc.
  pose (f := λ j, pre ++ filled (i * P + j) :: post).
  replace (pre ++ filled (i * P) :: post) with (f 0)
    by (unfold f; by rewrite Nat.add_0_r).
  replace (pre ++ filled (S i * P) :: post) with (f (length (seq 0 P)))
    by (unfold f; rewrite length_seq; do 3 f_equal; lia).
  apply foldM_fun. intros j x Hx.
  apply lookup_seq in Hx as [-> Hj]. simpl.
  assert (i * P + j < P * P) as Ht by nia.
  unfold f.
  rewrite (setitem2_same_size _ idx _ (filled (i * P + j))
             (replicate D zero)).
  - rewrite insert_app_r_alt by lia.
    rewrite Hpre, Nat.sub_diag. simpl.
    rewrite (Hsrc j Hj).
    rewrite (fill_next _ _ _ _ (cell (i * P + j)) Ht eq_refl).
    by replace (i * P + S j) with (S (i * P + j)) by lia.
  - rewrite <- Hpre. apply list_lookup_middle. done.
  - by apply fill_lookup.
  - rewrite (Hsrc j Hj), length_replicate. by apply cell_size.
Qed.

Lemma loop_i (pre post : list (list (list A))) idx
    (src : nat → nat → list A) :
  length pre = idx →
  (∀ i j, i < P → j < P → src i j = cell (i * P + j)) →
  foldM (λ patches i,
    foldM (λ patches j, setitem2 patches idx (i * P + j) (src i j))
          patches (seq 0 P))
    (pre ++ replicate (P * P) (replicate D zero) :: post) (seq 0 P)
  = Ok (pre ++ (cell <$> seq 0 (P * P)) :: post).
Proof.
  intros Hpre Hsrc.
  pose (f := λ i, pre ++ filled (i * P) :: post).
  replace (pre ++ replicate (P * P) (replicate D zero) :: post)
    with (f 0) by (unfold f; simpl; by rewrite fill_0).
  replace (pre ++ (cell <$> seq 0 (P * P)) :: post)
    with (f (length (seq 0 P))).
  2:{ unfold f. by rewrite length_seq, fill_all. }
  apply foldM_fun. intros i x Hx.
  apply lookup_seq in Hx as [-> Hi]. simpl.
  unfold f. apply loop_j; [done..|]. intros j Hj. by apply Hsrc.
Qed.
End one_image.

Lemma cell_index P i j : j < P → (i * P + j) / P = i ∧ (i * P + j) `mod` P = j.
Proof.
  intros Hj. split.
  - rewrite Nat.div_add_l by lia. rewrite Nat.div_small by lia. lia.
  - rewrite Nat.add_comm, Nat.Div0.mod_add. by apply Nat.mod_small.
Qed.

(** When every patch has the size of its slot, [patchify] returns the
    patches of every image in grid order. *)
Lemma patchify_fits (images : Tensor4 A) (P n c h : nat) :
  shape4 images = (n, c, h, h) → length (data4 images) = n → 0 < P →
  (∀ image i j, image ∈ data4 images → i < P → j < P →
     length (patch_at image (h / P) i j) = h * h / P ^ 2) →
  patchify zero images P
  = Ok ((λ image, patches_of image (h / P) P) <$> data4 images).
Proof.
  intros Hshape Hn HP Hfit. unfold patchify. rewrite Hshape.
  assert (P ^ 2 = P * P) as HPP by (simpl; lia).
  rewrite Nat.eqb_refl. unfold assert. rewrite bind_Ok.
  rewrite !pyfloordiv_ok, !bind_Ok by nia.
  set (D := h * h / P ^ 2). set (s := h / P).
  set (zrow := replicate (P ^ 2) (replicate D zero)).
  pose (f := λ a, ((λ image, patches_of image s P) <$> take a (data4 images))
                  ++ replicate (n - a) zrow).
  replace (zeros3 zero n (P ^ 2) D) with (f 0)
    by (unfold f, zeros3; simpl; by rewrite Nat.sub_0_r).
  replace ((λ image, patches_of image s P) <$> data4 images)
    with (f (length (enumerate (data4 images)))).
  2:{ unfold f. rewrite length_enumerate, Hn, Nat.sub_diag. simpl.
      rewrite app_nil_r, take_ge by lia. done. }
  apply foldM_fun. intros a [idx image] Hx.
  apply lookup_enumerate in Hx as [-> Himage].
  assert (a < n) as Ha by (rewrite <- Hn; by eapply lookup_lt_Some).
  unfold f. replace (n - a) with (S (n - S a)) by lia. simpl.
  rewrite (take_S_r _ _ image), fmap_app by done. simpl.
  rewrite <- app_assoc. simpl. unfold zrow, patches_of. rewrite HPP.
  apply (loop_i (λ k, patch_at image s (k / P) (k `mod` P)) P D).
  - intros k Hk. apply Hfit.
    + by eapply list_elem_of_lookup_2.
    + apply Nat.Div0.div_lt_upper_bound; lia.
    + apply Nat.mod_upper_bound; lia.
  - rewrite length_fmap, length_take. lia.
  - intros i j Hi Hj. by destruct (cell_index P i j Hj) as [-> ->].
Qed.

Lemma length_slice {B : Type} (a b : nat) (l : list B) :
  b ≤ length l → length (slice a b l) = b - a.
Proof. intros. unfold slice. rewrite length_take, length_drop. lia. Qed.

(** The size of a flattened crop that lies inside the image. *)
Lemma length_patch_at (image : list (list (list A))) c h w s i j :
  length image = c →
  Forall (λ chan, length chan = h ∧
                  Forall (λ row : list A, length row = w) chan) image →
  (i + 1) * s ≤ h → (j + 1) * s ≤ w →
  length (patch_at image s i j) = c * (s * s).
Proof.
  intros Hc Himage Hi Hj. unfold patch_at, flatten, crop.
  rewrite length_join, <- !list_fmap_compose.
  rewrite (sum_list_fmap_same (s * s)); [by rewrite Hc|].
  eapply Forall_impl; [exact Himage|]. intros chan [Hh Hrows]. unfold compose.
  rewrite length_join, <- list_fmap_compose.
  rewrite (sum_list_fmap_same s).
  - rewrite length_slice by lia. f_equal. lia.
  - apply Forall_take, Forall_drop.
    eapply Forall_impl; [exact Hrows|]. intros row Hw. unfold compose. cbv beta in Hw.
    rewrite length_slice by lia. lia.
Qed.

(** A batch with one channel whose side is a multiple of the grid size is
    cut into its patches. *)
Lemma patchify_one_channel (images : Tensor4 A) (P n h : nat) :
  wf_Tensor4 images → shape4 images = (n, 1, h, h) →
  0 < P → h `mod` P = 0 →
  patchify zero images P
  = Ok ((λ image, patches_of image (h / P) P) <$> data4 images).
Proof.
  intros Hwf Hshape HP Hdiv. unfold wf_Tensor4 in Hwf.
  rewrite Hshape in Hwf. destruct Hwf as [Hn Hdata].
  assert (h = P * (h / P)) as Hh by (apply Nat.Div0.div_exact; lia).
  apply (patchify_fits images P n 1 h); [done..|].
  intros image i j Himage Hi Hj.
  rewrite Forall_forall in Hdata. destruct (Hdata image Himage) as [Hc Hch].
  rewrite (length_patch_at image 1 h h) by (try done; nia).
  set (s := h / P) in *. rewrite Hh.
  replace (P * s * (P * s)) with (s * s * P ^ 2) by (simpl; lia).
  rewrite Nat.div_mul by (simpl; nia). lia.
Qed.

End patchify_facts.

Section patchify_claims.
Context {A : Type} (zero : A).

Lemma copy_into_mismatch (dst src : list A) :
  length src ≠ length dst → 2 ≤ length src →
  copy_into dst src = Err RuntimeError.
Proof.
  intros Hne Hlen. unfold copy_into. rewrite decide_False by done.
  destruct src as [|x [|y src]]; simpl in Hlen; [lia..|done].
Qed.

(** With two or more channels the first assignment already fails: the
    slots of [patches] were allocated without the factor [c]. *)
Lemma patchify_channels_raise (images : Tensor4 A) (P n c h : nat) :
  wf_Tensor4 images → shape4 images = (S n, c, h, h) →
  2 ≤ c → 0 < P → 0 < h → h `mod` P = 0 →
  patchify zero images P = Err RuntimeError.
Proof.
  intros Hwf Hshape Hc HP Hh Hdiv. unfold wf_Tensor4 in Hwf.
  rewrite Hshape in Hwf. destruct Hwf as [Hn Hdata].
  destruct (data4 images) as [|image rest] eqn:Hd; [done|].
  apply Forall_cons in Hdata as [[Hlen Hchan] _].
  assert (h = P * (h / P)) as Hs by (apply Nat.Div0.div_exact; lia).
  assert (P ^ 2 = P * P) as HPP by (simpl; lia).
  unfold patchify. rewrite Hshape, Nat.eqb_refl. unfold assert.
  rewrite bind_Ok, !pyfloordiv_ok, !bind_Ok, Hd by nia.
  set (s := h / P) in *.
  assert (0 < s) as Hpos by nia.
  assert (h * h / P ^ 2 = s * s) as ->.
  { rewrite Hs. replace (P * s * (P * s)) with (s * s * P ^ 2)
      by (simpl; lia).
    apply Nat.div_mul. nia. }
  destruct P as [|P']; [lia|].
  unfold enumerate. cbn [length seq zip zip_with foldM].
  assert (setitem2 (zeros3 zero (S n) (S P' ^ 2) (s * s)) 0 (0 * S P' + 0)
            (patch_at image s 0 0) = Err RuntimeError) as ->; [|done].
  unfold setitem2, zeros3. rewrite HPP.
  cbn [Nat.mul Nat.add replicate lookup list_lookup].
  rewrite copy_into_mismatch; [done|..].
  - rewrite length_replicate.
    rewrite (length_patch_at image c h h) by (try done; nia). nia.
  - rewrite (length_patch_at image c h h) by (try done; nia). nia.
Qed.
End patchify_claims.

(** C1 (the code deviates from the claim).  A well-formed batch of one
    2 by 2 image with two channels and grid size 2 satisfies [H = W] and
    [H mod P = 0]; the claim promises a result of shape (1, 4, 2), but
    [patchify] raises: the buffer [patches] is allocated with slots of
    [h * w // n_patches ** 2] elements, without the factor [c]. *)
Theorem patchify_two_channels_raises :
  wf_Tensor4 two_channels ∧ shape4 two_channels = (1, 2, 2, 2) ∧
  2 `mod` 2 = 0 ∧
  patchify 0 two_channels 2 = Err RuntimeError.
Proof.
  split; [|split; [|split]]; try reflexivity.
  cbv. repeat (split || constructor).
Qed.

(** C2, counterexample.  A 4 by 4 image and grid size 3: [4 mod 3] is not
    zero, yet [patchify] does not fail; it returns nine patches of one
    pixel. *)
Lemma patchify_indivisible_returns :
  wf_Tensor4 gray4 ∧ shape4 gray4 = (1, 1, 4, 4) ∧ 4 `mod` 3 ≠ 0 ∧
  patchify 0 gray4 3
  = Ok [[[1]; [2]; [3]; [5]; [6]; [7]; [9]; [10]; [11]]].
Proof.
  split; [|split; [|split]]; try reflexivity.
  - cbv. repeat (split || constructor).
  - cbv. lia.
Qed.

(** C2, amended.  [patchify] fails with its assertion whenever [H ≠ W];
    it does not fail when [H = W], the grid size is positive and divides
    [H], and the batch has one channel.  ([patchify] itself does not check
    that [P] divides [H].) *)
Theorem patchify_precondition {A : Type} (zero : A) (images : Tensor4 A)
    (P n c h w : nat) :
  wf_Tensor4 images → shape4 images = (n, c, h, w) →
  (h ≠ w → patchify zero images P = Err AssertionError) ∧
  (h = w → 0 < P → h `mod` P = 0 → c = 1 →
     ∃ patches, patchify zero images P = Ok patches).
Proof.
  intros Hwf Hshape. split.
  - intros Hne. unfold patchify. rewrite Hshape.
    by destruct (Nat.eqb_spec h w).
  - intros <- HP Hdiv ->. eexists.
    by apply (patchify_one_channel zero images P n h).
Qed.

Lemma patchify_precondition_witness :
  (4 ≠ 4 → patchify 0 gray4 2 = Err AssertionError) ∧
  (4 = 4 → 0 < 2 → 4 `mod` 2 = 0 → 1 = 1 →
     ∃ patches, patchify 0 gray4 2 = Ok patches).
Proof.
  apply (patchify_precondition 0 gray4 2 1 1 4 4).
  - cbv. repeat (split || constructor).
  - reflexivity.
Defined.

(** ** [get_positional_embeddings] *)

Lemma setitem_ij_ok (res : list (list R)) i j v row :
  res !! i = Some row → j < length row →
  setitem_ij res i j v = Ok (<[i := <[j := v]> row]> res).
Proof.
  intros Hrow Hj. unfold setitem_ij, getitem. rewrite Hrow, bind_Ok.
  by rewrite decide_True.
Qed.

Lemma even_mod2 (j : nat) : (j `mod` 2 =? 0) = Nat.even j.
Proof.
  destruct (Nat.even j) eqn:E.
  - apply Nat.even_spec in E as [k ->].
    apply Nat.eqb_eq. rewrite Nat.mul_comm. apply Nat.Div0.mod_mul.
  - apply Nat.eqb_neq. intros Hmod.
    apply Nat.Div0.mod_divides in Hmod as [k ->].
    by rewrite Nat.even_mul in E.
Qed.

Lemma get_positional_embeddings_ok (L D : nat) :
  get_positional_embeddings L D
  = Ok ((λ i, (λ j, pos_entry i j D) <$> seq 0 D) <$> seq 0 L).
Proof.
  unfold get_positional_embeddings.
  set (row := λ i, (λ j, pos_entry i j D) <$> seq 0 D).
  rewrite <- (fill_0 row (replicate D 1%R) L).
  rewrite <- (fill_all row (replicate D 1%R) L).
  transitivity (Ok (fill row (replicate D 1%R) L (length (seq 0 L))));
    [|by rewrite length_seq].
  apply (foldM_fun (fill row (replicate D 1%R) L)).
  intros i x Hx. apply lookup_seq in Hx as [-> Hi]. cbn [Nat.add].
  pose (f := λ j, <[i := fill (λ j, pos_entry i j D) 1%R D j]>
                    (fill row (replicate D 1%R) L i)).
  assert (fill row (replicate D 1%R) L i !! i = Some (replicate D 1%R)) as Hi0.
  { by apply fill_lookup. }
  assert (i < length (fill row (replicate D 1%R) L i)) as Hlen
    by (rewrite length_fill; lia).
  replace (fill row (replicate D 1%R) L i) with (f 0) at 1.
  2:{ unfold f. rewrite fill_0. by apply list_insert_id. }
  replace (fill row (replicate D 1%R) L (S i)) with (f (length (seq 0 D))).
  2:{ unfold f. rewrite length_seq, fill_all. by apply fill_next. }
  apply foldM_fun. intros j x Hx. apply lookup_seq in Hx as [-> Hj]. cbn [Nat.add].
  unfold f. rewrite (setitem_ij_ok _ _ _ _ (fill (λ j, pos_entry i j D) 1%R D j)).
  - rewrite list_insert_insert_eq. f_equal. f_equal.
    apply fill_next; [done|]. unfold pos_entry. by rewrite even_mod2.
  - by apply list_lookup_insert_eq.
  - rewrite length_fill; lia.
Qed.

Lemma Rpower_10000_0 : Rpower 10000 0 = 1%R.
Proof. apply Rpower_O. lra. Qed.

Lemma pos_entry_0 (pos D : nat) : pos_entry pos 0 D = sin (INR pos).
Proof.
  unfold pos_entry. simpl. f_equal.
  replace (0 / INR D)%R with 0%R by (unfold Rdiv; ring).
  rewrite Rpower_10000_0. field.
Qed.

(** C7.  For every [L] and [D] the generator returns an [L] by [D] table
    whose entry [(pos, dim)] is [sin(pos / 10000^(dim/D))] for even [dim]
    and [cos(pos / 10000^((dim-1)/D))] for odd [dim]; entry [(pos, 0)] is
    [sin(pos)]; for [L = 1], [D = 2] the table is [[0, 1]]; and every call
    with the same [(L, D)] returns the same table. *)
Theorem positional_embeddings_table (L D : nat) :
  ∃ table,
    get_positional_embeddings L D = Ok table ∧
    shape2 L D table ∧
    (∀ pos dim, pos < L → dim < D →
       entry table pos dim = Some (pos_entry pos dim D)) ∧
    (∀ pos, pos < L → 0 < D → entry table pos 0 = Some (sin (INR pos))) ∧
    get_positional_embeddings 1 2 = Ok [[0; 1]]%R ∧
    (∀ table', get_positional_embeddings L D = Ok table' → table' = table).
Proof.
  eexists. split; [apply get_positional_embeddings_ok|].
  assert (∀ pos dim, pos < L → dim < D →
            entry ((λ i, (λ j, pos_entry i j D) <$> seq 0 D) <$> seq 0 L)
              pos dim = Some (pos_entry pos dim D)) as Hentry.
  { intros pos dim Hpos Hdim. unfold entry.
    rewrite list_lookup_fmap, lookup_seq_lt by done. simpl.
    by rewrite list_lookup_fmap, lookup_seq_lt. }
  repeat split.
  - by rewrite length_fmap, length_seq.
  - apply Forall_fmap, Forall_forall. intros i _. simpl.
    by rewrite length_fmap, length_seq.
  - exact Hentry.
  - intros pos Hpos HD. rewrite Hentry by done. f_equal. apply pos_entry_0.
  - rewrite get_positional_embeddings_ok. simpl. do 3 f_equal.
    + rewrite pos_entry_0. simpl. apply sin_0.
    + f_equal. unfold pos_entry. simpl.
      replace (0 / Rpower 10000 (0 / (1 + 1)))%R with 0%R
        by (unfold Rdiv; ring).
      apply cos_0.
  - intros table'. rewrite get_positional_embeddings_ok. by intros [= <-].
Qed.

Lemma positional_embeddings_table_witness :
  ∃ table,
    get_positional_embeddings 1 2 = Ok table ∧
    shape2 1 2 table ∧
    (∀ pos dim, pos < 1 → dim < 2 →
       entry table pos dim = Some (pos_entry pos dim 2)) ∧
    (∀ pos, pos < 1 → 0 < 2 → entry table pos 0 = Some (sin (INR pos))) ∧
    get_positional_embeddings 1 2 = Ok [[0; 1]]%R ∧
    (∀ table', get_positional_embeddings 1 2 = Ok table' → table' = table).
Proof. exact (positional_embeddings_table 1 2). Defined.

(** ** Constructors *)

Lemma gen_bind_Ok {B C : Type} (m : gen B) (f : B → gen C) g a g' :
  m g = Ok (a, g') → (m ≫= f) g = f a g'.
Proof. intros H. unfold mbind, gen_bind. by rewrite H. Qed.

Lemma gen_bind_Err {B C : Type} (m : gen B) (f : B → gen C) g e :
  m g = Err e → (m ≫= f) g = Err e.
Proof. intros H. unfold mbind, gen_bind. by rewrite H. Qed.

Lemma gen_bind_inv {B C : Type} (m : gen B) (f : B → gen C) g c g2 :
  (m ≫= f) g = Ok (c, g2) →
  ∃ a g1, m g = Ok (a, g1) ∧ f a g1 = Ok (c, g2).
Proof.
  unfold mbind, gen_bind. destruct (m g) as [[a g1]|e]; [|done]. eauto.
Qed.

Lemma lift_inv {B : Type} (r : result B) g a g' :
  lift r g = Ok (a, g') → r = Ok a ∧ g' = g.
Proof. unfold lift. destruct r; [|done]. by intros [= -> ->]. Qed.

Lemma ret_inv {B : Type} (a b : B) (g g' : rng) :
  mret (M := gen) a g = Ok (b, g') → b = a ∧ g' = g.
Proof. by intros [= -> ->]. Qed.

(** Inversion of a constructor that returned. *)
Ltac gen_inv H :=
  repeat
    match type of H with
    | (_ ≫= _) _ = Ok _ =>
        let a := fresh "a" in
        let g := fresh "g" in
        let H1 := fresh "H" in
        apply gen_bind_inv in H as (a & g & H1 & H)
    | mret _ _ = Ok _ => apply ret_inv in H as [? ?]
    end.

Lemma total_bind {B C : Type} (m : gen B) (f : B → gen C) Q1 Q2 :
  total m Q1 → (∀ a, Q1 a → total (f a) Q2) → total (m ≫= f) Q2.
Proof.
  intros Hm Hf g. destruct (Hm g) as (a & g1 & Ha & HQ).
  destruct (Hf a HQ g1) as (c & g2 & Hc & HQ2).
  exists c, g2. split; [|done]. by rewrite (gen_bind_Ok _ _ _ _ _ Ha).
Qed.

Lemma total_bind_Err {B C : Type} (m : gen B) (f : B → gen C) Q e :
  total m Q → (∀ a, Q a → ∀ g, f a g = Err e) → ∀ g, (m ≫= f) g = Err e.
Proof.
  intros Hm Hf g. destruct (Hm g) as (a & g1 & Ha & HQ).
  rewrite (gen_bind_Ok _ _ _ _ _ Ha). by eapply Hf.
Qed.

Lemma total_ret {B : Type} (a : B) (Q : B → Prop) : Q a → total (mret a) Q.
Proof. intros HQ g. by exists a, g. Qed.

Lemma total_lift {B : Type} (a : B) : total (lift (Ok a)) (λ x, x = a).
Proof. intros g. by exists a, g. Qed.

Lemma total_mapM {B C : Type} (f : B → gen C) (Q : C → Prop) (l : list B) :
  (∀ x, total (f x) Q) →
  total (mapM f l) (λ k, length k = length l ∧ Forall Q k).
Proof.
  intros Hf. induction l as [|x l IH]; simpl.
  - apply total_ret. by split.
  - eapply total_bind; [apply Hf|]. intros y Hy.
    eapply total_bind; [apply IH|]. intros k [Hlen Hk].
    apply total_ret. split; [simpl; by rewrite Hlen | by constructor].
Qed.

Lemma total_sound {B : Type} (m : gen B) Q g a g' :
  total m Q → m g = Ok (a, g') → Q a.
Proof.
  intros Hm H. destruct (Hm g) as (a' & g'' & H' & HQ).
  rewrite H in H'. by injection H' as <- <-.
Qed.

Lemma mapM_gen_inv {B C : Type} (f : B → gen C) (Q : C → Prop) (l : list B)
    g k g' :
  (∀ x g y g', f x g = Ok (y, g') → Q y) →
  mapM f l g = Ok (k, g') → length k = length l ∧ Forall Q k.
Proof.
  intros Hf. revert g k. induction l as [|x l IH]; simpl; intros g k H.
  - apply ret_inv in H as [Hk _]. subst k. by split.
  - gen_inv H. subst. destruct (IH _ _ H1) as [Hlen Hk].
    split; [simpl; by rewrite Hlen|]. constructor; [|done]. by eapply Hf.
Qed.

Lemma mapM_gen_Err {B C : Type} (f : B → gen C) (x : B) (l : list B) g e :
  f x g = Err e → mapM f (x :: l) g = Err e.
Proof. intros H. simpl. by apply gen_bind_Err. Qed.

Lemma total_rand (n : nat) : total (rand n) (λ v, length v = n).
Proof.
  intros g. eexists _, _. split; [reflexivity|].
  by rewrite length_fmap, length_seq.
Qed.

Lemma total_rand2 (rows cols : nat) : total (rand2 rows cols) (shape2 rows cols).
Proof.
  intros g. destruct (total_mapM (λ _ : nat, rand cols) _ (seq 0 rows)
                        (λ _, total_rand cols) g) as (m & g' & H & Hlen & Hm).
  exists m, g'. split; [done|]. split; [|done].
  by rewrite Hlen, length_seq.
Qed.

Lemma total_Linear_init (i o : nat) :
  total (Linear.init i o) (Linear_shaped i o).
Proof.
  unfold Linear.init.
  eapply total_bind; [apply total_rand2|]. intros w Hw.
  eapply total_bind; [apply total_rand|]. intros b Hb.
  apply total_ret. by repeat split; try apply Hw.
Qed.

Lemma LayerNorm_init_shaped (d : nat) : LayerNorm_shaped d (LayerNorm.init d).
Proof. repeat split; simpl; by rewrite length_replicate. Qed.

(** [MyMSA(d, n_heads)] returns exactly when [n_heads] is not zero and
    divides [d]. *)
Lemma MyMSA_init_ok (d n_heads : nat) :
  n_heads ≠ 0 → d `mod` n_heads = 0 →
  total (MyMSA.init d n_heads) (MyMSA_shaped d n_heads).
Proof.
  intros Hn Hdiv. unfold MyMSA.init.
  rewrite pymod_ok, Hdiv by done.
  pose proof (λ l, total_mapM (λ _ : nat, Linear.init (d / n_heads) (d / n_heads))
    _ l (λ _, total_Linear_init (d / n_heads) (d / n_heads))) as Hmap.
  eapply total_bind; [apply total_lift|]. intros r ->.
  eapply total_bind; [apply total_lift|]. intros _ _.
  eapply total_bind; [apply Hmap|]. intros q [Hq1 Hq2].
  eapply total_bind; [apply Hmap|]. intros k [Hk1 Hk2].
  eapply total_bind; [apply Hmap|]. intros v [Hv1 Hv2].
  apply total_ret. rewrite length_seq in *.
  repeat split; simpl; try done; try lia.
  apply Nat.Div0.div_exact. done.
Qed.

Lemma MyMSA_init_zero_heads (d : nat) g :
  MyMSA.init d 0 g = Err ZeroDivisionError.
Proof. reflexivity. Qed.

Lemma MyMSA_init_indivisible (d n_heads : nat) g :
  n_heads ≠ 0 → d `mod` n_heads ≠ 0 →
  MyMSA.init d n_heads g = Err AssertionError.
Proof.
  intros Hn Hdiv. unfold MyMSA.init. rewrite pymod_ok by done.
  apply Nat.eqb_neq in Hdiv. simpl.
  unfold mbind, gen_bind. simpl. by rewrite Hdiv.
Qed.

Lemma MyVitBlock_init_ok (hidden_d n_heads mlp_ratio : nat) :
  n_heads ≠ 0 → hidden_d `mod` n_heads = 0 →
  total (MyVitBlock.init hidden_d n_heads mlp_ratio)
        (MyVitBlock_shaped hidden_d n_heads mlp_ratio).
Proof.
  intros Hn Hdiv. unfold MyVitBlock.init.
  eapply total_bind; [by apply MyMSA_init_ok|]. intros a Ha.
  eapply total_bind; [apply total_Linear_init|]. intros l0 H0.
  eapply total_bind; [apply total_Linear_init|]. intros l2 H2.
  apply total_ret.
  repeat split; simpl; try done; try apply LayerNorm_init_shaped;
    try apply Ha; try apply H0; try apply H2.
Qed.

Lemma MyVitBlock_init_Err (hidden_d n_heads mlp_ratio : nat) g e :
  MyMSA.init hidden_d n_heads g = Err e →
  MyVitBlock.init hidden_d n_heads mlp_ratio g = Err e.
Proof. intros H. unfold MyVitBlock.init. by apply gen_bind_Err. Qed.

(** A block that was constructed has the layer sizes of its arguments. *)
Lemma MyVitBlock_init_inv (hidden_d n_heads mlp_ratio : nat) g b g' :
  MyVitBlock.init hidden_d n_heads mlp_ratio g = Ok (b, g') →
  n_heads ≠ 0 ∧ hidden_d `mod` n_heads = 0 ∧
  MyVitBlock_shaped hidden_d n_heads mlp_ratio b.
Proof.
  intros H.
  destruct (decide (n_heads = 0)) as [->|Hn].
  { by rewrite (MyVitBlock_init_Err _ _ _ _ _ (MyMSA_init_zero_heads _ _)) in H. }
  destruct (decide (hidden_d `mod` n_heads = 0)) as [Hdiv|Hdiv].
  - repeat split; try done;
      apply (total_sound _ _ _ _ _ (MyVitBlock_init_ok _ _ mlp_ratio Hn Hdiv) H).
  - by rewrite (MyVitBlock_init_Err _ _ _ _ _
                  (MyMSA_init_indivisible _ _ _ Hn Hdiv)) in H.
Qed.

Lemma shape2_positional (L D : nat) (table : list (list R)) :
  get_positional_embeddings L D = Ok table → shape2 L D table.
Proof.
  rewrite get_positional_embeddings_ok. intros [= <-]. split.
  - by rewrite length_fmap, length_seq.
  - apply Forall_fmap, Forall_forall. intros i _. simpl.
    by rewrite length_fmap, length_seq.
Qed.

Lemma Myvit_init_ok (c h w P nb hd nh od : nat) :
  P ≠ 0 → h `mod` P = 0 → w `mod` P = 0 →
  nb = 0 ∨ (nh ≠ 0 ∧ hd `mod` nh = 0) →
  total (Myvit.init (c, h, w) P nb hd nh od)
        (constructed (c, h, w) P nb hd nh od).
Proof.
  intros HP Hh Hw Hheads. unfold Myvit.init.
  rewrite !pymod_ok, Hh, Hw by done.
  eapply total_bind; [apply total_lift|]. intros r ->.
  eapply total_bind; [apply total_lift|]. intros _ _.
  eapply total_bind; [apply total_lift|]. intros r ->.
  eapply total_bind; [apply total_lift|]. intros _ _.
  eapply total_bind; [apply total_Linear_init|]. intros lm Hlm.
  eapply total_bind; [apply total_rand2|]. intros ct Hct.
  rewrite get_positional_embeddings_ok.
  eapply total_bind; [apply total_lift|]. intros pe ->.
  eapply (total_bind _ _ (λ k, length k = nb ∧
            Forall (MyVitBlock_shaped hd nh MyVitBlock.default_mlp_ratio) k)).
  { destruct Hheads as [->|[Hnh Hdiv]].
    - apply total_ret. by split.
    - intros g.
      destruct (total_mapM (λ _ : nat, MyVitBlock.init hd nh
                  MyVitBlock.default_mlp_ratio) _ (seq 0 nb)
                  (λ _, MyVitBlock_init_ok hd nh _ Hnh Hdiv) g)
        as (k & g' & Hk & Hlen & Hall).
      exists k, g'. by rewrite length_seq in Hlen. }
  intros blocks [Hlen Hblocks].
  eapply total_bind; [apply total_Linear_init|]. intros mlp Hmlp.
  apply total_ret. unfold constructed, Myvit_shaped. simpl.
  repeat split; try done; try lia; try apply Hlm; try apply Hct;
    try apply Hmlp.
  - by rewrite length_fmap, length_seq.
  - apply Forall_fmap, Forall_forall. intros i _. simpl.
    by rewrite length_fmap, length_seq.
  - by rewrite get_positional_embeddings_ok.
Qed.

Lemma Myvit_init_zero_patches (c h w nb hd nh od : nat) g :
  Myvit.init (c, h, w) 0 nb hd nh od g = Err ZeroDivisionError.
Proof. reflexivity. Qed.

Lemma Myvit_init_height (c h w P nb hd nh od : nat) g :
  P ≠ 0 → h `mod` P ≠ 0 →
  Myvit.init (c, h, w) P nb hd nh od g = Err AssertionError.
Proof.
  intros HP Hh. unfold Myvit.init. rewrite !pymod_ok by done.
  apply Nat.eqb_neq in Hh. unfold mbind, gen_bind, lift, assert.
  by rewrite Hh.
Qed.

Lemma Myvit_init_width (c h w P nb hd nh od : nat) g :
  P ≠ 0 → h `mod` P = 0 → w `mod` P ≠ 0 →
  Myvit.init (c, h, w) P nb hd nh od g = Err AssertionError.
Proof.
  intros HP Hh Hw. unfold Myvit.init. rewrite !pymod_ok by done.
  apply Nat.eqb_neq in Hw. unfold mbind, gen_bind, lift, assert.
  by rewrite Hh, Hw.
Qed.

(** With at least one block, a failure of the attention constructor is a
    failure of the model constructor. *)
Lemma Myvit_init_heads (c h w P nb hd nh od : nat) g e :
  P ≠ 0 → h `mod` P = 0 → w `mod` P = 0 → 0 < nb →
  (∀ g, MyMSA.init hd nh g = Err e) →
  Myvit.init (c, h, w) P nb hd nh od g = Err e.
Proof.
  intros HP Hh Hw Hnb Hmsa. unfold Myvit.init.
  rewrite !pymod_ok, Hh, Hw by done.
  rewrite get_positional_embeddings_ok. revert g.
  do 2 (eapply total_bind_Err; [apply total_lift|]; intros r ->;
        eapply total_bind_Err; [apply (total_lift tt)|]; intros _ _).
  eapply total_bind_Err; [apply total_Linear_init|]. intros lm _.
  eapply total_bind_Err; [apply total_rand2|]. intros ct _.
  eapply total_bind_Err; [apply total_lift|]. intros pe _ g.
  apply gen_bind_Err. destruct nb as [|nb]; [lia|].
  apply mapM_gen_Err. by apply MyVitBlock_init_Err.
Qed.

Lemma Myvit_init_inv (c h w P nb hd nh od : nat) g m g' :
  Myvit.init (c, h, w) P nb hd nh od g = Ok (m, g') →
  constructed (c, h, w) P nb hd nh od m.
Proof.
  intros H.
  destruct (decide (P = 0)) as [->|HP];
    [by rewrite Myvit_init_zero_patches in H|].
  destruct (decide (h `mod` P = 0)) as [Hh|Hh];
    [|by rewrite Myvit_init_height in H].
  destruct (decide (w `mod` P = 0)) as [Hw|Hw];
    [|by rewrite Myvit_init_width in H].
  assert (nb = 0 ∨ (nh ≠ 0 ∧ hd `mod` nh = 0)) as Hheads.
  { destruct (decide (nb = 0)) as [|Hnb]; [by left|]. right.
    destruct (decide (nh = 0)) as [->|Hnh].
    { rewrite (Myvit_init_heads _ _ _ _ _ _ _ _ _ ZeroDivisionError) in H;
        [done..|lia|apply MyMSA_init_zero_heads]. }
    split; [done|].
    destruct (decide (hd `mod` nh = 0)) as [|Hdiv]; [done|].
    rewrite (Myvit_init_heads _ _ _ _ _ _ _ _ _ AssertionError) in H;
      [done..|lia|]. intros g0. by apply MyMSA_init_indivisible. }
  apply (total_sound _ _ _ _ _ (Myvit_init_ok c h w P nb hd nh od HP Hh Hw Hheads) H).
Qed.

(** C9, counterexample.  With no block, the model is constructed although
    [hidden_d = 8] is not divisible by [n_heads = 3]. *)
Lemma Myvit_init_no_block_no_check :
  8 `mod` 3 ≠ 0 ∧
  ∃ m g', Myvit.init (1, 28, 28) 7 0 8 3 10 (λ _, 0%R) = Ok (m, g').
Proof.
  split; [by vm_compute|].
  assert (7 ≠ 0) as HP by lia.
  assert (28 `mod` 7 = 0) as Hdiv by reflexivity.
  destruct (Myvit_init_ok 1 28 28 7 0 8 3 10 HP Hdiv Hdiv (or_introl eq_refl)
              (λ _ : nat, 0%R)) as (m & g' & H & _).
  exists m, g'. exact H.
Qed.

(** C9, amended.  For a patch count other than zero: construction fails
    with an assertion when the height or the width is not divisible by the
    patch count; with at least one block it fails with an assertion when
    [hidden_d] is not divisible by the (non-zero) [n_heads]; it succeeds
    when both divisibility conditions hold. *)
Theorem Myvit_init_divisibility (c h w P nb hd nh od : nat) (g : rng) :
  P ≠ 0 →
  (h `mod` P ≠ 0 ∨ w `mod` P ≠ 0 →
     Myvit.init (c, h, w) P nb hd nh od g = Err AssertionError) ∧
  (h `mod` P = 0 → w `mod` P = 0 → 0 < nb → nh ≠ 0 → hd `mod` nh ≠ 0 →
     Myvit.init (c, h, w) P nb hd nh od g = Err AssertionError) ∧
  (h `mod` P = 0 → w `mod` P = 0 → nh ≠ 0 → hd `mod` nh = 0 →
     ∃ m g', Myvit.init (c, h, w) P nb hd nh od g = Ok (m, g')).
Proof.
  intros HP. repeat split.
  - intros [Hh|Hw]; [by apply Myvit_init_height|].
    destruct (decide (h `mod` P = 0)); [by apply Myvit_init_width|].
    by apply Myvit_init_height.
  - intros Hh Hw Hnb Hnh Hdiv. apply Myvit_init_heads; try done.
    intros g0. by apply MyMSA_init_indivisible.
  - intros Hh Hw Hnh Hdiv.
    destruct (Myvit_init_ok c h w P nb hd nh od HP Hh Hw) with (g := g)
      as (m & g' & H & _); [by right|]. by exists m, g'.
Qed.

Lemma Myvit_init_divisibility_witness :
  (28 `mod` 7 ≠ 0 ∨ 28 `mod` 7 ≠ 0 →
     Myvit.init (1, 28, 28) 7 2 8 2 10 (λ _, 0%R) = Err AssertionError) ∧
  (28 `mod` 7 = 0 → 28 `mod` 7 = 0 → 0 < 2 → 2 ≠ 0 → 8 `mod` 2 ≠ 0 →
     Myvit.init (1, 28, 28) 7 2 8 2 10 (λ _, 0%R) = Err AssertionError) ∧
  (28 `mod` 7 = 0 → 28 `mod` 7 = 0 → 2 ≠ 0 → 8 `mod` 2 = 0 →
     ∃ m g', Myvit.init (1, 28, 28) 7 2 8 2 10 (λ _, 0%R) = Ok (m, g')).
Proof.
  apply (Myvit_init_divisibility 1 28 28 7 2 8 2 10 (λ _, 0%R)). lia.
Defined.

(** ** The positional table during training *)

Lemma pos_embed_run_event (m : Myvit.t) (e : event) :
  Param.requires_grad (Myvit.pos_embed m) = false →
  Myvit.pos_embed (run_event m e) = Myvit.pos_embed m.
Proof.
  intros Hflag. destruct e as [images|new]; simpl; [done|].
  unfold Param_step. by rewrite Hflag.
Qed.

Lemma pos_embed_run (es : list event) (m : Myvit.t) :
  Param.requires_grad (Myvit.pos_embed m) = false →
  Myvit.pos_embed (run m es) = Myvit.pos_embed m.
Proof.
  revert m. induction es as [|e es IH]; intros m Hflag; simpl; [done|].
  unfold run in *. simpl.
  rewrite IH; rewrite pos_embed_run_event; done.
Qed.

(** C8.  The positional table of a constructed model is the table the
    generator returns for [(P² + 1, hidden_d)], it has that shape, its
    gradient flag is off, and it is the same after any sequence of forward
    passes and optimizer steps. *)
Theorem pos_embed_fixed (chw : nat * nat * nat) (P nb hd nh od : nat)
    (g : rng) (m : Myvit.t) (g' : rng) :
  Myvit.init chw P nb hd nh od g = Ok (m, g') →
  get_positional_embeddings (P ^ 2 + 1) hd
  = Ok (Param.data (Myvit.pos_embed m)) ∧
  shape2 (P ^ 2 + 1) hd (Param.data (Myvit.pos_embed m)) ∧
  Param.requires_grad (Myvit.pos_embed m) = false ∧
  ∀ es, Myvit.pos_embed (run m es) = Myvit.pos_embed m.
Proof.
  destruct chw as [[c h] w]. intros H.
  apply Myvit_init_inv in H as (Hshaped & _ & Hflag & Htable).
  split; [done|]. split; [by apply shape2_positional|].
  split; [done|]. intros es. by apply pos_embed_run.
Qed.

Lemma pos_embed_fixed_witness :
  ∃ m g',
    Myvit.init (1, 2, 2) 1 1 2 1 3 (λ _, 0%R) = Ok (m, g') ∧
    (get_positional_embeddings (1 ^ 2 + 1) 2
     = Ok (Param.data (Myvit.pos_embed m)) ∧
     shape2 (1 ^ 2 + 1) 2 (Param.data (Myvit.pos_embed m)) ∧
     Param.requires_grad (Myvit.pos_embed m) = false ∧
     ∀ es, Myvit.pos_embed (run m es) = Myvit.pos_embed m).
Proof.
  eexists _, _. split; [vm_compute; reflexivity|].
  eapply (pos_embed_fixed (1, 2, 2) 1 1 2 1 3 (λ _, 0%R)).
  vm_compute. reflexivity.
Defined.

(** ** The option [mlp_ratio] *)

(** C10, counterexample.  [mlp_ratio] is not a parameter of
    [Myvit.__init__]: passing it is a [TypeError], no model is built. *)
Lemma Myvit_call_mlp_ratio_rejected :
  Myvit.call (1, 28, 28) [("mlp_ratio", 2)]%string (λ _, 0%R) = Err TypeError.
Proof. reflexivity. Qed.

Lemma Myvit_call_inv (chw : nat * nat * nat) (kwargs : list (string * nat))
    g m g' :
  Myvit.call chw kwargs g = Ok (m, g') →
  Forall (λ kv : string * nat, kv.1 ∈ Myvit.keywords) kwargs ∧
  Myvit.init chw (Myvit.kwarg kwargs "n_patches" 7)
    (Myvit.kwarg kwargs "n_blocks" 2) (Myvit.kwarg kwargs "hidden_d" 8)
    (Myvit.kwarg kwargs "n_heads" 2) (Myvit.kwarg kwargs "out_d" 10) g
  = Ok (m, g').
Proof.
  unfold Myvit.call. intros H.
  destruct (forallb _ kwargs) eqn:Hall.
  - split; [|exact H]. apply Forall_forall. intros kv Hkv.
    rewrite forallb_forall in Hall.
    apply list_elem_of_In, Hall in Hkv.
    by apply bool_decide_eq_true_1 in Hkv.
  - done.
Qed.

(** C10, amended.  [mlp_ratio] is an option of the block's constructor, with
    default 4: a block constructed with [mlp_ratio] expands [hidden_d] to
    [mlp_ratio * hidden_d] and back.  The model's constructor has no such
    option: a call that returns a model was not given the keyword, and
    every block of the model expands [hidden_d] to [4 * hidden_d]. *)
Theorem mlp_ratio_of_blocks :
  MyVitBlock.default_mlp_ratio = 4 ∧
  (∀ hd nh r g b g',
     MyVitBlock.init hd nh r g = Ok (b, g') →
     Linear_shaped hd (r * hd) (MyVitBlock.mlp_0 b) ∧
     Linear_shaped (r * hd) hd (MyVitBlock.mlp_2 b)) ∧
  (∀ chw kwargs g m g',
     Myvit.call chw kwargs g = Ok (m, g') →
     ("mlp_ratio"%string ∉ kwargs.*1) ∧
     Forall (λ b,
       Linear_shaped (Myvit.hidden_d m) (4 * Myvit.hidden_d m)
         (MyVitBlock.mlp_0 b) ∧
       Linear_shaped (4 * Myvit.hidden_d m) (Myvit.hidden_d m)
         (MyVitBlock.mlp_2 b)) (Myvit.blocks m)).
Proof.
  split; [done|]. split.
  - intros hd nh r g b g' H.
    apply MyVitBlock_init_inv in H as (_ & _ & Hb). split; apply Hb.
  - intros [[c h] w] kwargs g m g' H.
    apply Myvit_call_inv in H as [Hkeys H]. split.
    + intros Hin. apply list_elem_of_fmap in Hin as (kv & Hk & Hkv).
      rewrite Forall_forall in Hkeys. specialize (Hkeys kv Hkv).
      rewrite <- Hk in Hkeys. apply list_elem_of_In in Hkeys.
      simpl in Hkeys. intuition discriminate.
    + apply Myvit_init_inv in H as (Hshaped & _).
      destruct Hshaped as (_ & _ & Hhd & _ & _ & _ & _ & _ & _ & _ & _ & Hblocks & _).
      rewrite Hhd. eapply Forall_impl; [exact Hblocks|].
      intros b Hb. split; apply Hb.
Qed.

Lemma mlp_ratio_of_blocks_witness :
  ∃ m g',
    Myvit.call (1, 2, 2) [("n_patches", 1); ("hidden_d", 2)]%string
      (λ _, 0%R) = Ok (m, g') ∧
    ("mlp_ratio"%string ∉ [("n_patches", 1); ("hidden_d", 2)]%string.*1) ∧
    Forall (λ b,
      Linear_shaped (Myvit.hidden_d m) (4 * Myvit.hidden_d m)
        (MyVitBlock.mlp_0 b) ∧
      Linear_shaped (4 * Myvit.hidden_d m) (Myvit.hidden_d m)
        (MyVitBlock.mlp_2 b)) (Myvit.blocks m).
Proof.
  eexists _, _. split; [vm_compute; reflexivity|].
  eapply (proj2 (proj2 mlp_ratio_of_blocks) (1, 2, 2) _ (λ _, 0%R)).
  vm_compute. reflexivity.
Defined.

(** ** Layers on well-shaped inputs *)

Lemma shape2_fmap (f : list R → list R) (L d d' : nat) (x : list (list R)) :
  (∀ row, length row = d → length (f row) = d') →
  shape2 L d x → shape2 L d' (f <$> x).
Proof.
  intros Hf [Hlen Hrows]. split; [by rewrite length_fmap|].
  apply Forall_fmap. eapply Forall_impl; [exact Hrows|]. intros row. apply Hf.
Qed.

Lemma shape3_fmap (f : list (list R) → list (list R)) (N L d L' d' : nat)
    (xs : list (list (list R))) :
  (∀ x, shape2 L d x → shape2 L' d' (f x)) →
  shape3 N L d xs → shape3 N L' d' (f <$> xs).
Proof.
  intros Hf [Hlen Hxs]. split; [by rewrite length_fmap|].
  apply Forall_fmap. eapply Forall_impl; [exact Hxs|]. intros x. apply Hf.
Qed.

Lemma zip_with_fmap_same {X Y Z W : Type} (f : Y → Z → W) (g : X → Y)
    (h : X → Z) (l : list X) :
  zip_with f (g <$> l) (h <$> l) = (λ x, f (g x) (h x)) <$> l.
Proof. induction l as [|x l IH]; [done|]. csimpl. by rewrite IH. Qed.

Lemma length_tadd1 (u v : list R) (d : nat) :
  length u = d → length v = d → length (tadd1 u v) = d.
Proof. intros. unfold tadd1. rewrite length_zip_with. lia. Qed.

Lemma shape2_tadd2 (x y : list (list R)) (L d : nat) :
  shape2 L d x → shape2 L d y → shape2 L d (tadd2 x y).
Proof.
  intros [Hx1 Hx2] [Hy1 Hy2]. split.
  - unfold tadd2. rewrite length_zip_with. lia.
  - unfold tadd2. clear Hx1 Hy1. revert y Hy2.
    induction Hx2 as [|u x Hu _ IH]; intros y Hy2; [constructor|].
    destruct Hy2 as [|v y Hv Hy2]; [constructor|]. simpl.
    constructor; [by apply length_tadd1 | by apply IH].
Qed.

(** *** Linear *)

Lemma Linear_forward_ok (i o : nat) (l : Linear.t) (x : list R) :
  Linear_shaped i o l → length x = i →
  Linear.forward l x = Ok (affine l x).
Proof.
  intros (Hi & _) Hx. unfold Linear.forward.
  by rewrite decide_True by congruence.
Qed.

Lemma Linear_forward_mismatch (i o : nat) (l : Linear.t) (x : list R) :
  Linear_shaped i o l → length x ≠ i →
  Linear.forward l x = Err RuntimeError.
Proof.
  intros (Hi & _) Hx. unfold Linear.forward.
  by rewrite decide_False by congruence.
Qed.

Lemma length_affine (i o : nat) (l : Linear.t) (x : list R) :
  Linear_shaped i o l → length (affine l x) = o.
Proof.
  intros (_ & _ & [Hw _] & Hb). unfold affine.
  rewrite length_zip_with, length_fmap. lia.
Qed.

Lemma Linear_forward2_ok (i o L : nat) (l : Linear.t) (x : list (list R)) :
  Linear_shaped i o l → shape2 L i x →
  Linear.forward2 l x = Ok (affine l <$> x).
Proof.
  intros Hl [_ Hx]. apply mapM_ok.
  eapply Forall_impl; [exact Hx|]. intros row. by apply (Linear_forward_ok i o).
Qed.

Lemma shape2_affine (i o L : nat) (l : Linear.t) (x : list (list R)) :
  Linear_shaped i o l → shape2 L i x → shape2 L o (affine l <$> x).
Proof.
  intros Hl. apply shape2_fmap. intros row _. by eapply length_affine.
Qed.

Lemma Linear_forward3_ok (i o N L : nat) (l : Linear.t)
    (xs : list (list (list R))) :
  Linear_shaped i o l → shape3 N L i xs →
  Linear.forward3 l xs = Ok ((λ x : list (list R), affine l <$> x) <$> xs).
Proof.
  intros Hl [_ Hxs]. apply mapM_ok.
  eapply Forall_impl; [exact Hxs|]. intros x. by apply (Linear_forward2_ok i o L).
Qed.

(** *** LayerNorm *)

Lemma LayerNorm_forward_ok (d : nat) (ln : LayerNorm.t) (x : list R) :
  LayerNorm_shaped d ln → length x = d →
  LayerNorm.forward ln x = Ok (layer_norm ln x).
Proof.
  intros (Hd & _) Hx. unfold LayerNorm.forward.
  rewrite decide_True by congruence.
  unfold layer_norm, LayerNorm.mean, LayerNorm.eps.
  by rewrite length_fmap.
Qed.

Lemma length_layer_norm (d : nat) (ln : LayerNorm.t) (x : list R) :
  LayerNorm_shaped d ln → length x = d → length (layer_norm ln x) = d.
Proof.
  intros (_ & Hw & Hb) Hx. unfold layer_norm.
  rewrite !length_zip_with, length_fmap. lia.
Qed.

Lemma LayerNorm_forward3_ok (d N L : nat) (ln : LayerNorm.t)
    (xs : list (list (list R))) :
  LayerNorm_shaped d ln → shape3 N L d xs →
  LayerNorm.forward3 ln xs = Ok ((λ x : list (list R), layer_norm ln <$> x) <$> xs).
Proof.
  intros Hln [_ Hxs]. apply mapM_ok.
  eapply Forall_impl; [exact Hxs|]. intros x [_ Hx]. apply mapM_ok.
  eapply Forall_impl; [exact Hx|]. intros row.
  by apply (LayerNorm_forward_ok d).
Qed.

Lemma shape3_layer_norm (d N L : nat) (ln : LayerNorm.t)
    (xs : list (list (list R))) :
  LayerNorm_shaped d ln → shape3 N L d xs →
  shape3 N L d ((λ x : list (list R), layer_norm ln <$> x) <$> xs).
Proof.
  intros Hln. apply shape3_fmap. intros x. apply shape2_fmap.
  intros row. by apply length_layer_norm.
Qed.

(** *** Softmax *)

Lemma sum_R_div (e : list R) (s : R) :
  sum_R ((λ a, a / s)%R <$> e) = (sum_R e / s)%R.
Proof.
  induction e as [|a e IH]; csimpl.
  - unfold Rdiv. ring.
  - rewrite IH. unfold Rdiv. ring.
Qed.

Lemma sum_R_exp_nonneg (x : list R) : (0 <= sum_R (exp <$> x))%R.
Proof.
  induction x as [|b x IH]; csimpl; [lra|]. pose proof (exp_pos b). lra.
Qed.

Lemma sum_R_exp_pos (x : list R) : x ≠ [] → (0 < sum_R (exp <$> x))%R.
Proof.
  destruct x as [|a x]; [done|]. intros _. csimpl.
  assert (0 <= sum_R (exp <$> x))%R as Hx.
  { apply sum_R_exp_nonneg. }
  pose proof (exp_pos a). lra.
Qed.

Lemma length_softmax (x : list R) : length (softmax x) = length x.
Proof. unfold softmax. by rewrite !length_fmap. Qed.

Lemma softmax_sum (x : list R) : x ≠ [] → sum_R (softmax x) = 1%R.
Proof.
  intros Hx. unfold softmax. rewrite sum_R_div.
  pose proof (sum_R_exp_pos x Hx). field. lra.
Qed.

Lemma softmax_nonneg (x : list R) : Forall (λ p, 0 <= p)%R (softmax x).
Proof.
  unfold softmax. apply Forall_fmap, Forall_fmap, Forall_forall.
  intros a _. simpl.
  destruct (decide (x = [])) as [->|Hx].
  - simpl. unfold Rdiv. rewrite Rinv_0. pose proof (exp_pos a). lra.
  - pose proof (sum_R_exp_pos x Hx). pose proof (exp_pos a).
    apply Rlt_le, Rdiv_lt_0_compat; lra.
Qed.

(** ** Multi-head self-attention *)

Lemma getitem_lt {B : Type} `{!Inhabited B} (l : list B) (i : nat) :
  i < length l → getitem l i = Ok (l !!! i).
Proof.
  intros Hi. unfold getitem.
  by rewrite (list_lookup_lookup_total_lt l i Hi).
Qed.

Lemma Forall_lookup_total {B : Type} `{!Inhabited B} (P : B → Prop)
    (l : list B) (i : nat) :
  Forall P l → i < length l → P (l !!! i).
Proof.
  intros Hl Hi. eapply Forall_lookup_1; [exact Hl|].
  by apply list_lookup_lookup_total_lt.
Qed.

Lemma foldl_zip_with_app {X : Type} (x : list X) (F : nat → X → list R)
    (hs : list nat) (acc : X → list R) :
  foldl (zip_with app) (acc <$> x) ((λ h, F h <$> x) <$> hs)
  = (λ t, acc t ++ mjoin ((λ h, F h t) <$> hs)) <$> x.
Proof.
  revert acc. induction hs as [|h hs IH]; intros acc; csimpl.
  - apply list_fmap_ext. intros _ t _. by rewrite app_nil_r.
  - rewrite zip_with_fmap_same, IH.
    apply list_fmap_ext. intros _ t _. by rewrite app_assoc.
Qed.

Lemma hstack_heads {X : Type} (x : list X) (F : nat → X → list R) (n : nat) :
  0 < n →
  hstack ((λ h, F h <$> x) <$> seq 0 n)
  = Ok ((λ t, mjoin ((λ h, F h t) <$> seq 0 n)) <$> x).
Proof.
  intros Hn. destruct n as [|n]; [lia|]. cbn [seq fmap list_fmap hstack].
  f_equal. apply (foldl_zip_with_app x F (seq 1 n) (F 0)).
Qed.

Section mhsa_facts.
Variables (m : MyMSA.t) (d nh : nat).
Hypothesis Hm : MyMSA_shaped d nh m.

Lemma slice_head (h : nat) (token : list R) :
  slice (h * MyMSA.d_head m) ((h + 1) * MyMSA.d_head m) token
  = head_slice m h token.
Proof. unfold slice, head_slice. f_equal. lia. Qed.

Lemma length_head_slice (h : nat) (token : list R) :
  h < nh → length token = d → length (head_slice m h token) = MyMSA.d_head m.
Proof.
  destruct Hm as (_ & _ & _ & Hd & _). intros Hh Htoken.
  unfold head_slice. rewrite length_take, length_drop. nia.
Qed.

Lemma shape2_head_slice (h L : nat) (x : list (list R)) :
  h < nh → shape2 L d x → shape2 L (MyMSA.d_head m) (head_slice m h <$> x).
Proof.
  intros Hh. apply shape2_fmap. intros row. by apply length_head_slice.
Qed.

Lemma head_forward_ok (L : nat) (x : list (list R)) (h : nat) :
  shape2 L d x → h < nh →
  MyMSA.head_forward m x h = Ok (head_output m h x <$> x).
Proof.
  intros Hx Hh.
  destruct Hm as (_ & _ & _ & _ & Hq & Hk & Hv & HQ & HK & HV).
  pose proof (shape2_head_slice h L x Hh Hx) as Hslice.
  unfold MyMSA.head_forward.
  rewrite !getitem_lt, !bind_Ok by lia.
  rewrite (list_fmap_ext _ (head_slice m h) x)
    by (intros; apply slice_head).
  rewrite (Linear_forward2_ok _ _ L _ _
             (Forall_lookup_total _ _ h HQ ltac:(lia)) Hslice), bind_Ok.
  rewrite (Linear_forward2_ok _ _ L _ _
             (Forall_lookup_total _ _ h HK ltac:(lia)) Hslice), bind_Ok.
  rewrite (Linear_forward2_ok _ _ L _ _
             (Forall_lookup_total _ _ h HV ltac:(lia)) Hslice), bind_Ok.
  destruct (Forall_lookup_total _ _ h HV ltac:(lia)) as (_ & -> & _).
  f_equal. unfold matmul, matmul_T. rewrite <- !list_fmap_compose.
  apply list_fmap_ext. intros _ tq _. unfold compose.
  unfold head_output, attention_weights, column.
  apply list_fmap_ext. intros _ c _.
  rewrite <- !list_fmap_compose. unfold compose, dot at 1.
  by rewrite zip_with_fmap_r.
Qed.

Lemma sequence_forward_ok (L : nat) (x : list (list R)) :
  shape2 L d x →
  mapM (MyMSA.head_forward m x) (seq 0 (MyMSA.n_heads m)) ≫= hstack
  = Ok (attention_spec m x).
Proof.
  intros Hx. destruct Hm as (_ & Hn & Hpos & _). rewrite Hn.
  rewrite (mapM_ok _ (λ h, head_output m h x <$> x)), bind_Ok.
  - unfold attention_spec. rewrite Hn.
    by apply (hstack_heads x (λ h, head_output m h x)).
  - apply Forall_seq. intros h Hh. apply (head_forward_ok L); [done|lia].
Qed.

Lemma length_head_output (h : nat) (x : list (list R)) (tq : list R) :
  length (head_output m h x tq) = MyMSA.d_head m.
Proof. unfold head_output. by rewrite length_fmap, length_seq. Qed.

Lemma shape2_attention_spec (L : nat) (x : list (list R)) :
  length x = L → shape2 L d (attention_spec m x).
Proof.
  intros Hx. destruct Hm as (_ & Hn & _ & Hd & _).
  unfold attention_spec. split; [by rewrite length_fmap|].
  apply Forall_fmap, Forall_forall. intros tq _. simpl.
  rewrite length_join, <- list_fmap_compose.
  rewrite (sum_list_fmap_same (MyMSA.d_head m)).
  - rewrite length_seq. lia.
  - apply Forall_forall. intros h _. unfold compose.
    exact (length_head_output h x tq).
Qed.

Lemma MyMSA_forward_ok (N L : nat) (xs : list (list (list R))) :
  0 < N → shape3 N L d xs →
  MyMSA.forward m xs = Ok (attention_spec m <$> xs).
Proof.
  intros HN [Hlen Hxs]. unfold MyMSA.forward.
  rewrite (mapM_ok _ (attention_spec m)), bind_Ok.
  - destruct xs; [simpl in Hlen; lia|done].
  - eapply Forall_impl; [exact Hxs|]. intros x Hx.
    by apply (sequence_forward_ok L).
Qed.

Lemma shape3_attention_spec (N L : nat) (xs : list (list (list R))) :
  shape3 N L d xs → shape3 N L d (attention_spec m <$> xs).
Proof.
  apply shape3_fmap. intros x [Hx _]. by apply shape2_attention_spec.
Qed.

End mhsa_facts.

(** C3, counterexample.  On an empty batch the list of per-sequence
    results is empty and [torch.cat] refuses it: there is no output, so no
    output of the input's shape. *)
Lemma MyMSA_forward_empty_batch :
  MyMSA_shaped 2 2 msa22 ∧ shape3 0 2 2 [] ∧
  MyMSA.forward msa22 [] = Err RuntimeError.
Proof.
  split; [|split; [|reflexivity]].
  - vm_compute. repeat (split || constructor).
  - split; [done|constructor].
Qed.

(** C3, amended.  For every non-empty batch of shape (N, seq_len, hidden_d)
    and every attention module whose head count divides [hidden_d], the
    forward pass maps every sequence, independently of the others, to the
    concatenation over the heads of softmax(Q·Kᵗ / sqrt(d_head))·V computed
    on the head's slice of the tokens; the output has the shape of the
    input. *)
Theorem MyMSA_forward_attention (m : MyMSA.t) (d nh N L : nat)
    (xs : list (list (list R))) :
  MyMSA_shaped d nh m → 0 < N → shape3 N L d xs →
  MyMSA.forward m xs = Ok (attention_spec m <$> xs) ∧
  shape3 N L d (attention_spec m <$> xs).
Proof.
  intros Hm HN Hxs. split.
  - by apply (MyMSA_forward_ok m d nh Hm N L).
  - by apply (shape3_attention_spec m d nh Hm).
Qed.

Lemma MyMSA_forward_attention_witness :
  MyMSA.forward msa22 tokens22 = Ok (attention_spec msa22 <$> tokens22) ∧
  shape3 1 2 2 (attention_spec msa22 <$> tokens22).
Proof.
  apply (MyMSA_forward_attention msa22 2 2 1 2 tokens22).
  - vm_compute. repeat (split || constructor).
  - lia.
  - vm_compute. repeat (split || constructor).
Defined.

(** ** Transformer block *)

Lemma zip_with_fmap_r_same {X Z W : Type} (f : X → Z → W) (h : X → Z)
    (l : list X) :
  zip_with f l (h <$> l) = (λ x, f x (h x)) <$> l.
Proof. induction l as [|x l IH]; [done|]. csimpl. by rewrite IH. Qed.

Section block_facts.
Variable gelu : R → R.
Variables (b : MyVitBlock.t) (hd nh r : nat).
Hypothesis Hb : MyVitBlock_shaped hd nh r b.

Lemma mlp_ok (N L : nat) (xs : list (list (list R))) :
  shape3 N L hd xs →
  MyVitBlock.mlp gelu b xs
  = Ok ((λ x : list (list R), mlp_spec gelu b <$> x) <$> xs).
Proof.
  intros Hxs. destruct Hb as (_ & _ & _ & _ & _ & H0 & H2).
  unfold MyVitBlock.mlp.
  rewrite (Linear_forward3_ok hd (r * hd) N L) by done. rewrite bind_Ok.
  rewrite (Linear_forward3_ok (r * hd) hd N L); [|done|].
  - f_equal. rewrite <- !list_fmap_compose.
    apply list_fmap_ext. intros _ x _. unfold compose.
    rewrite <- !list_fmap_compose. done.
  - apply (shape3_fmap _ N L (r * hd)).
    + intros x. apply shape2_fmap. intros row Hrow. by rewrite length_fmap.
    + revert Hxs. apply shape3_fmap. intros x. by apply shape2_affine.
Qed.

Lemma shape2_block_spec (L : nat) (x : list (list R)) :
  shape2 L hd x → shape2 L hd (block_spec gelu b x).
Proof.
  intros Hx. destruct Hb as (_ & _ & Hn1 & Hmsa & Hn2 & H0 & H2).
  unfold block_spec.
  assert (shape2 L hd (tadd2 x (attention_spec (MyVitBlock.mhsa b)
            (layer_norm (MyVitBlock.norm1 b) <$> x)))) as Hx'.
  { apply shape2_tadd2; [done|].
    apply (shape2_attention_spec _ hd nh Hmsa).
    rewrite length_fmap. apply Hx. }
  apply shape2_tadd2; [done|]. revert Hx'. apply shape2_fmap.
  intros row _. unfold mlp_spec. by eapply length_affine.
Qed.

Lemma block_forward_ok (N L : nat) (xs : list (list (list R))) :
  0 < N → shape3 N L hd xs →
  MyVitBlock.forward gelu b xs = Ok (block_spec gelu b <$> xs).
Proof.
  intros HN Hxs. pose proof Hb as (_ & _ & Hn1 & Hmsa & Hn2 & H0 & H2).
  unfold MyVitBlock.forward.
  rewrite (LayerNorm_forward3_ok hd N L) by done. rewrite bind_Ok.
  rewrite (MyMSA_forward_ok _ hd nh Hmsa N L), bind_Ok;
    [|done|by apply shape3_layer_norm].
  cbv zeta.
  pose (x' := λ x, tadd2 x (attention_spec (MyVitBlock.mhsa b)
                              (layer_norm (MyVitBlock.norm1 b) <$> x))).
  assert (tadd3 xs (attention_spec (MyVitBlock.mhsa b) <$>
            ((λ x : list (list R), layer_norm (MyVitBlock.norm1 b) <$> x)
               <$> xs)) = x' <$> xs) as ->.
  { unfold tadd3. by rewrite <- list_fmap_compose, zip_with_fmap_r_same. }
  assert (shape3 N L hd (x' <$> xs)) as Hout.
  { revert Hxs. apply shape3_fmap. intros x Hx. unfold x'.
    apply shape2_tadd2; [done|].
    apply (shape2_attention_spec _ hd nh Hmsa).
    rewrite length_fmap. apply Hx. }
  rewrite (LayerNorm_forward3_ok hd N L) by done. rewrite bind_Ok.
  rewrite (mlp_ok N L), bind_Ok by (by apply shape3_layer_norm).
  f_equal. unfold tadd3. rewrite <- !list_fmap_compose.
  rewrite zip_with_fmap_same. apply list_fmap_ext. intros _ x _.
  unfold compose, block_spec, x'.
  by rewrite <- list_fmap_compose.
Qed.

Lemma shape3_block_spec (N L : nat) (xs : list (list (list R))) :
  shape3 N L hd xs → shape3 N L hd (block_spec gelu b <$> xs).
Proof. apply shape3_fmap. intros x. apply shape2_block_spec. Qed.

End block_facts.

(** C4.  A block constructed with [(hidden_d, n_heads, mlp_ratio)] has two
    layer normalisations of width [hidden_d], each with its own scale and
    bias, and the feed-forward layers Linear(hidden_d → mlp_ratio·hidden_d)
    and Linear(mlp_ratio·hidden_d → hidden_d).  For every sequence [x] of a
    batch, a block with these layers returns
    [x' + MLP(LayerNorm2(x'))] with [x' = x + MHSA(LayerNorm1(x))], where MLP
    is Linear, GELU, Linear. *)
Theorem block_forward_pre_norm_residual (gelu : R → R) (hd nh r : nat) :
  (∀ g b g', MyVitBlock.init hd nh r g = Ok (b, g') →
     MyVitBlock_shaped hd nh r b) ∧
  (∀ b N L xs n x,
     MyVitBlock_shaped hd nh r b → shape3 N L hd xs → xs !! n = Some x →
     ∃ out, MyVitBlock.forward gelu b xs = Ok out ∧
            shape3 N L hd out ∧
            out !! n = Some (block_spec gelu b x)).
Proof.
  split.
  - intros g b g' H. by apply MyVitBlock_init_inv in H as (_ & _ & H).
  - intros b N L xs n x Hb Hxs Hx.
    assert (0 < N) as HN.
    { destruct Hxs as [<- _]. apply lookup_lt_Some in Hx. lia. }
    exists (block_spec gelu b <$> xs). split; [|split].
    + by apply (block_forward_ok gelu b hd nh r Hb N L).
    + by apply (shape3_block_spec gelu b hd nh r Hb).
    + by rewrite list_lookup_fmap, Hx.
Qed.

Lemma block_forward_pre_norm_residual_witness :
  ∃ out, MyVitBlock.forward (λ a, a) block2 tokens22 = Ok out ∧
         shape3 1 2 2 out ∧
         out !! 0 = Some (block_spec (λ a, a) block2 [[1; 2]; [3; 4]]%R).
Proof.
  apply (proj2 (block_forward_pre_norm_residual (λ a, a) 2 1 2)
           block2 1 2 tokens22 0 [[1; 2]; [3; 4]]%R).
  - vm_compute. repeat (split || constructor).
  - vm_compute. repeat (split || constructor).
  - reflexivity.
Defined.

(** ** The forward pass *)

Lemma foldM_preserves {St B : Type} (I : St → Prop)
    (body : St → B → result St) (l : list B) (s s' : St) :
  (∀ s x s', I s → body s x = Ok s' → I s') →
  I s → foldM body s l = Ok s' → I s'.
Proof.
  intros Hbody. revert s. induction l as [|x l IH]; simpl; intros s Hs H.
  - by injection H as <-.
  - destruct (body s x) as [s1|e] eqn:H1; [|done]. rewrite bind_Ok in H.
    eapply IH; [|exact H]. by eapply Hbody.
Qed.

Lemma setitem2_length {A : Type} (patches : list (list (list A))) idx k src
    patches' :
  setitem2 patches idx k src = Ok patches' →
  length patches' = length patches.
Proof.
  unfold setitem2. destruct (patches !! idx) as [row|]; [|done].
  destruct (row !! k) as [slot|]; [|done].
  destruct (copy_into slot src) as [new|]; [|done]. rewrite bind_Ok.
  intros [= <-]. apply length_insert.
Qed.

(** Whatever [patchify] returns has one sequence per image of the shape. *)
Lemma patchify_length {A : Type} (zero : A) (images : Tensor4 A) (P : nat)
    (patches : list (list (list A))) n c h w :
  shape4 images = (n, c, h, w) →
  patchify zero images P = Ok patches → length patches = n.
Proof.
  intros Hshape. unfold patchify. rewrite Hshape.
  destruct (assert (h =? w)) as [[]|]; [|done]. rewrite bind_Ok.
  destruct (pyfloordiv (h * w) (P ^ 2)) as [D|]; [|done]. rewrite bind_Ok.
  destruct (pyfloordiv h P) as [s|]; [|done]. rewrite bind_Ok.
  intros H.
  eapply (foldM_preserves (λ p, length p = n)) in H; [done| |].
  - intros p [idx image] p' Hp Hbody.
    eapply (foldM_preserves (λ p, length p = n)) in Hbody; [done| |done].
    intros p1 i p1' Hp1 Hbody1.
    eapply (foldM_preserves (λ p, length p = n)) in Hbody1; [done| |done].
    intros p2 j p2' Hp2 Hset. apply setitem2_length in Hset. congruence.
  - unfold zeros3. by rewrite length_replicate.
Qed.

Lemma mapM_getitem {B C : Type} (f : B → C) (pre l : list B) :
  mapM (λ i, x ← getitem (pre ++ l) i; Ok (f x)) (seq (length pre) (length l))
  = Ok (f <$> l).
Proof.
  revert pre. induction l as [|x l IH]; intros pre; [done|].
  cbn [length seq mapM].
  assert (getitem (pre ++ x :: l) (length pre) = Ok x) as ->
    by (unfold getitem; by rewrite list_lookup_middle).
  rewrite !bind_Ok.
  specialize (IH (pre ++ [x])). rewrite <- app_assoc in IH.
  rewrite length_app, Nat.add_1_r in IH. cbn [app] in IH.
  by rewrite IH.
Qed.

Lemma mapM_getitem_all {B C : Type} (f : B → C) (l : list B) :
  mapM (λ i, x ← getitem l i; Ok (f x)) (seq 0 (length l)) = Ok (f <$> l).
Proof. exact (mapM_getitem f [] l). Qed.

Lemma mapM_fmap {B C D : Type} (f : B → result C) (g : C → D) (l : list B) :
  mapM f l ≫= (λ k, Ok (g <$> k)) = mapM (λ x, g <$> f x) l.
Proof.
  induction l as [|x l IH]; [done|]. cbn [mapM].
  destruct (f x) as [y|e]; [|done]. rewrite !bind_Ok. cbn [fmap result_fmap].
  rewrite bind_Ok, <- IH.
  destruct (mapM f l) as [k|e]; [|done]. done.
Qed.

Lemma stack_ok {B : Type} (l : list B) : l ≠ [] → stack l = Ok l.
Proof. by destruct l. Qed.

Lemma embed_steps (m : Myvit.t) (images : Tensor4 R)
    (seqs : list (list (list R))) :
  Myvit.embed m images = Ok seqs →
  ∃ patches tokens,
    step_patchify m images = Ok patches ∧
    step_embed m patches = Ok tokens ∧
    seqs = step_positional m (step_class_token m tokens).
Proof.
  unfold Myvit.embed. destruct (shape4 images) as [[[n c] h] w] eqn:Hshape.
  destruct (patchify 0%R images (Myvit.n_patches m)) as [patches|] eqn:Hp;
    [|done].
  rewrite bind_Ok.
  destruct (Linear.forward3 (Myvit.linear_mapper m) patches)
    as [tokens|] eqn:Ht; [|done].
  rewrite bind_Ok.
  rewrite (mapM_getitem_all
             (λ tok, Param.data (Myvit.class_token m) ++ tok) tokens), bind_Ok.
  assert (length tokens = n) as Hlen.
  { apply mapM_Ok_inv, Forall2_length in Ht.
    rewrite <- Ht. by eapply patchify_length. }
  destruct (decide (tokens = [])) as [->|Hne]; [done|].
  rewrite stack_ok, bind_Ok by (by intros ?%fmap_nil_inv).
  intros [= <-].
  exists patches, tokens. split; [done|]. split; [done|].
  unfold step_positional, step_class_token, tadd3.
  rewrite zip_with_replicate_r_eq; [done|].
  by rewrite length_fmap.
Qed.

(** C5.  A forward pass that returns has gone through the steps in this
    order: patchify; linear embedding of every patch; the shared class token
    put in front of every sequence; then the positional table added to every
    sequence, so that row 0 of the table meets the class token; the blocks,
    one after the other; position 0 of every sequence; the classification
    head. *)
Theorem forward_order (gelu : R → R) (m : Myvit.t) (images : Tensor4 R)
    (out : list (list R)) :
  Myvit.forward gelu m images = Ok out →
  forward_spec gelu m images = Ok out ∧
  ∃ patches tokens,
    step_patchify m images = Ok patches ∧
    step_embed m patches = Ok tokens ∧
    Myvit.embed m images
    = Ok ((λ tok, tadd2 (Param.data (Myvit.class_token m) ++ tok)
                        (Param.data (Myvit.pos_embed m))) <$> tokens).
Proof.
  unfold Myvit.forward.
  destruct (Myvit.embed m images) as [seqs|] eqn:He; [|done].
  rewrite bind_Ok. intros H.
  destruct (embed_steps m images seqs He) as (patches & tokens & Hp & Ht & ->).
  split.
  - unfold forward_spec. rewrite Hp, bind_Ok, Ht, bind_Ok. cbv zeta.
    unfold step_blocks, step_class_position, step_head.
    destruct (foldM _ _ (Myvit.blocks m)) as [final|]; [|done].
    rewrite bind_Ok in H |- *.
    destruct (mapM _ final) as [cls|]; [|done].
    rewrite bind_Ok in H |- *.
    by rewrite <- mapM_fmap.
  - exists patches, tokens. split; [done|]. split; [done|].
    unfold step_positional, step_class_token.
    by rewrite <- list_fmap_compose.
Qed.

Lemma forward_order_witness :
  ∃ out,
    Myvit.forward (λ a, a) tiny images22 = Ok out ∧
    (forward_spec (λ a, a) tiny images22 = Ok out ∧
     ∃ patches tokens,
       step_patchify tiny images22 = Ok patches ∧
       step_embed tiny patches = Ok tokens ∧
       Myvit.embed tiny images22
       = Ok ((λ tok, tadd2 (Param.data (Myvit.class_token tiny) ++ tok)
                           (Param.data (Myvit.pos_embed tiny))) <$> tokens)).
Proof.
  eexists. split; [reflexivity|].
  apply (forward_order (λ a, a) tiny images22). reflexivity.
Defined.

(** ** The output of the model *)

Lemma class_position_ok (hd N L : nat) (final : list (list (list R))) :
  shape3 N (L + 1) hd final →
  ∃ cls, mapM (λ s : list (list R), getitem s 0) final = Ok cls ∧
         shape2 N hd cls.
Proof.
  intros [Hlen Hfinal]. exists ((λ s : list (list R), s !!! 0) <$> final).
  split; [|split].
  - apply mapM_ok. eapply Forall_impl; [exact Hfinal|].
    intros s [Hs _]. apply getitem_lt. lia.
  - by rewrite length_fmap.
  - apply Forall_fmap. eapply Forall_impl; [exact Hfinal|].
    intros s [Hs Hrows]. unfold compose.
    apply Forall_lookup_total; [done|lia].
Qed.

Section forward_facts.
Variable gelu : R → R.
Variables (m : Myvit.t) (P hd nh od h N : nat) (images : Tensor4 R).
Hypothesis Hm : Myvit_shaped (1, h, h) P hd nh od m.
Hypothesis Hwf : wf_Tensor4 images.
Hypothesis Hshape : shape4 images = (N, 1, h, h).
Hypothesis HN : 0 < N.

Lemma shape3_patches :
  shape3 N (P ^ 2) (Myvit.input_d m)
    ((λ image, patches_of image (h / P) P) <$> data4 images).
Proof.
  destruct Hm as (_ & _ & _ & _ & HP & Hdiv & _ & Hd & _).
  simpl in Hdiv, Hd. unfold wf_Tensor4 in Hwf. rewrite Hshape in Hwf.
  destruct Hwf as [Hn Hdata].
  assert (h = P * (h / P)) as Hh by (by apply Nat.Div0.div_exact).
  split; [by rewrite length_fmap|].
  apply Forall_fmap. eapply Forall_impl; [exact Hdata|].
  intros image [Hc Hchan]. unfold compose, patches_of. split.
  - by rewrite length_fmap, length_seq.
  - apply Forall_fmap, Forall_seq. intros k Hk. unfold compose.
    assert (k / P < P)
      by (apply Nat.Div0.div_lt_upper_bound; simpl in Hk; lia).
    assert (k `mod` P < P) by (apply Nat.mod_upper_bound; lia).
    rewrite (length_patch_at image 1 h h) by (try done; nia).
    rewrite Hd. lia.
Qed.

Lemma embed_ok :
  ∃ seqs, Myvit.embed m images = Ok seqs ∧ shape3 N (P ^ 2 + 1) hd seqs.
Proof.
  pose proof Hm as (_ & HPm & _ & _ & HP & Hdiv & _ & Hd & Hlm & Hct & Hpe & _).
  simpl in Hdiv. pose proof shape3_patches as Hpatches.
  unfold Myvit.embed. rewrite Hshape, HPm.
  rewrite (patchify_one_channel 0%R images P N h) by done. rewrite bind_Ok.
  rewrite (Linear_forward3_ok _ hd N (P ^ 2)) by done. rewrite bind_Ok.
  rewrite mapM_getitem_all, bind_Ok.
  set (tokens := (λ x : list (list R), affine (Myvit.linear_mapper m) <$> x)
                   <$> _).
  assert (shape3 N (P ^ 2) hd tokens) as Htokens.
  { revert Hpatches. apply shape3_fmap. intros x. by apply shape2_affine. }
  assert (shape3 N (P ^ 2 + 1) hd
            ((λ tok, Param.data (Myvit.class_token m) ++ tok) <$> tokens))
    as Hseqs.
  { revert Htokens. apply shape3_fmap. intros x [Hx1 Hx2].
    destruct Hct as [Hc1 Hc2]. split.
    - rewrite length_app. lia.
    - by apply Forall_app. }
  rewrite stack_ok, bind_Ok.
  2:{ destruct Hseqs as [Hlen _]. intros Hnil%(f_equal length).
      rewrite length_fmap in Hlen, Hnil. simpl in Hnil. lia. }
  eexists. split; [done|]. unfold tadd3.
  rewrite zip_with_replicate_r_eq by apply Hseqs.
  revert Hseqs. apply shape3_fmap. intros x Hx. unfold flip.
  by apply shape2_tadd2.
Qed.

Lemma blocks_ok (seqs : list (list (list R))) (L : nat) :
  shape3 N L hd seqs →
  ∃ final,
    foldM (λ out block, MyVitBlock.forward gelu block out) seqs
          (Myvit.blocks m) = Ok final ∧
    shape3 N L hd final.
Proof.
  intros Hseqs.
  destruct Hm as (_ & _ & _ & _ & _ & _ & _ & _ & _ & _ & _ & Hblocks & _).
  destruct (foldM_inv (λ _ s, shape3 N L hd s)
              (λ out block, MyVitBlock.forward gelu block out)
              (Myvit.blocks m) seqs Hseqs) as (final & Hf & Hshape3).
  - intros i b s Hb Hs.
    pose proof (Forall_lookup_1 _ _ _ _ Hblocks Hb) as Hshaped.
    exists (block_spec gelu b <$> s). split.
    + by apply (block_forward_ok gelu b hd nh _ Hshaped N L).
    + by apply (shape3_block_spec gelu b hd nh _ Hshaped).
  - by exists final.
Qed.

End forward_facts.

(** C6, counterexample.  The model expects 2 by 2 images.  A batch of one
    1 by 1 image is square and its side is divisible by the patch count 1,
    but the forward pass raises: the patch vector has one element and the
    linear embedding expects four. *)
Lemma forward_other_size_raises :
  Myvit_shaped (1, 2, 2) 1 2 1 3 tiny ∧
  wf_Tensor4 images11 ∧ shape4 images11 = (1, 1, 1, 1) ∧
  1 `mod` Myvit.n_patches tiny = 0 ∧
  Myvit.forward (λ a, a) tiny images11 = Err RuntimeError.
Proof.
  split; [|split; [|split; [|split]]]; try reflexivity.
  - vm_compute. repeat (split || constructor).
  - vm_compute. repeat (split || constructor).
Qed.

(** C6, amended.  For a model configured for one channel and square images
    of side [h], with at least one class, and every non-empty batch of
    shape (N, 1, h, h), the forward pass returns N rows of [out_d] numbers,
    every row non-negative and of sum 1 (in exact real arithmetic). *)
Theorem forward_distribution (gelu : R → R) (m : Myvit.t)
    (P hd nh od h N : nat) (images : Tensor4 R) :
  Myvit_shaped (1, h, h) P hd nh od m →
  wf_Tensor4 images → shape4 images = (N, 1, h, h) → 0 < N → 0 < od →
  ∃ out, Myvit.forward gelu m images = Ok out ∧
         length out = N ∧
         Forall (λ row, length row = od ∧
                        Forall (λ p, 0 <= p)%R row ∧
                        sum_R row = 1%R) out.
Proof.
  intros Hm Hwf Hshape HN Hod.
  pose proof Hm as (_ & _ & _ & _ & _ & _ & _ & _ & _ & _ & _ & _ & Hmlp).
  destruct (embed_ok m P hd nh od h N images Hm Hwf Hshape HN)
    as (seqs & He & Hseqs).
  destruct (blocks_ok gelu m P hd nh od h N Hm HN seqs _ Hseqs)
    as (final & Hf & Hfinal).
  destruct (class_position_ok hd N _ final Hfinal) as (cls & Hc & Hcls).
  unfold Myvit.forward.
  rewrite He, bind_Ok, Hf, bind_Ok, Hc, bind_Ok.
  rewrite (Linear_forward2_ok hd od N) by done. rewrite bind_Ok.
  eexists. split; [done|]. split.
  - rewrite !length_fmap. apply Hcls.
  - apply Forall_fmap, Forall_fmap, Forall_forall. intros v _.
    unfold compose.
    assert (length (softmax (affine (Myvit.mlp m) v)) = od) as Hlen
      by (rewrite length_softmax; by eapply length_affine).
    split; [done|]. split; [apply softmax_nonneg|].
    apply softmax_sum. intros Hnil.
    rewrite length_softmax, Hnil in Hlen. simpl in Hlen. lia.
Qed.

Lemma forward_distribution_witness :
  ∃ out, Myvit.forward (λ a, a) tiny images22 = Ok out ∧
         length out = 2 ∧
         Forall (λ row, length row = 3 ∧
                        Forall (λ p, 0 <= p)%R row ∧
                        sum_R row = 1%R) out.
Proof.
  apply (forward_distribution (λ a, a) tiny 1 2 1 3 2 2 images22).
  - vm_compute. repeat (split || constructor).
  - vm_compute. repeat (split || constructor).
  - reflexivity.
  - lia.
  - lia.
Defined.

(** * Further properties of the code *)

(** ** [patchify] *)

Section patchify_more.
Context {A : Type} (zero : A).

Lemma copy_into_length (dst src new : list A) :
  copy_into dst src = Ok new → length new = length dst.
Proof.
  unfold copy_into. destruct (decide (length src = length dst)) as [Hl|_].
  - by intros [= <-].
  - destruct src as [|x [|y src]]; [done| |done].
    intros [= <-]. apply length_replicate.
Qed.

Lemma copy_into_refused (dst src : list A) :
  length src ≠ length dst → length src ≠ 1 →
  copy_into dst src = Err RuntimeError.
Proof.
  intros Hne H1. unfold copy_into. rewrite decide_False by done.
  by destruct src as [|x [|y src]].
Qed.

Lemma copy_into_stored (D : nat) (src : list A) :
  length src = D ∨ length src = 1 →
  copy_into (replicate D zero) src = Ok (stored zero D src).
Proof.
  intros Hsrc. unfold stored, copy_into. rewrite length_replicate.
  destruct (decide (length src = D)) as [|Hne]; [done|].
  destruct Hsrc as [|H1]; [done|]. by destruct src as [|x [|y src]].
Qed.

Lemma setitem2_stores (patches : list (list (list A))) idx k row slot src new :
  patches !! idx = Some row → row !! k = Some slot →
  copy_into slot src = Ok new →
  setitem2 patches idx k src = Ok (<[idx := <[k := new]> row]> patches).
Proof.
  intros Hrow Hslot Hnew. unfold setitem2. by rewrite Hrow, Hslot, Hnew.
Qed.

Section one_image_stored.
Variables (cell : nat → list A) (P D : nat).

Local Abbreviation filled := (fill cell (replicate D zero) (P * P)).

Lemma loop_j_stored (pre post : list (list (list A))) idx i
    (src : nat → list A) :
  length pre = idx → i < P →
  (∀ j, j < P →
     copy_into (replicate D zero) (src j) = Ok (cell (i * P + j))) →
  foldM (λ patches j, setitem2 patches idx (i * P + j) (src j))
        (pre ++ filled (i * P) :: post) (seq 0 P)
  = Ok (pre ++ filled (S i * P) :: post).
Proof.
  intros Hpre Hi Hsrc.
  pose (f := λ j, pre ++ filled (i * P + j) :: post).
  replace (pre ++ filled (i * P) :: post) with (f 0)
    by (unfold f; by rewrite Nat.add_0_r).
  replace (pre ++ filled (S i * P) :: post) with (f (length (seq 0 P)))
    by (unfold f; rewrite length_seq; do 3 f_equal; lia).
  apply foldM_fun. intros j x Hx.
  apply lookup_seq in Hx as [-> Hj]. cbn [Nat.add].
  assert (i * P + j < P * P) as Ht by nia.
  unfold f.
  rewrite (setitem2_stores _ idx _ (filled (i * P + j)) (replicate D zero)
             _ (cell (i * P + j))).
  - rewrite insert_app_r_alt by lia.
    rewrite Hpre, Nat.sub_diag. cbn [insert list_insert].
    rewrite (fill_next _ _ _ _ (cell (i * P + j)) Ht eq_refl).
    by replace (i * P + S j) with (S (i * P + j)) by lia.
  - rewrite <- Hpre. by apply list_lookup_middle.
  - by apply fill_lookup.
  - by apply Hsrc.
Qed.

Lemma loop_i_stored (pre post : list (list (list A))) idx
    (src : nat → nat → list A) :
  length pre = idx →
  (∀ i j, i < P → j < P →
     copy_into (replicate D zero) (src i j) = Ok (cell (i * P + j))) →
  foldM (λ patches i,
    foldM (λ patches j, setitem2 patches idx (i * P + j) (src i j))
          patches (seq 0 P))
    (pre ++ replicate (P * P) (replicate D zero) :: post) (seq 0 P)
  = Ok (pre ++ (cell <$> seq 0 (P * P)) :: post).
Proof.
  intros Hpre Hsrc.
  pose (f := λ i, pre ++ filled (i * P) :: post).
  replace (pre ++ replicate (P * P) (replicate D zero) :: post)
    with (f 0) by (unfold f; cbn [Nat.mul]; by rewrite fill_0).
  replace (pre ++ (cell <$> seq 0 (P * P)) :: post)
    with (f (length (seq 0 P))).
  2:{ unfold f. by rewrite length_seq, fill_all. }
  apply foldM_fun. intros i x Hx.
  apply lookup_seq in Hx as [-> Hi]. cbn [Nat.add].
  unfold f. apply loop_j_stored; [done..|]. intros j Hj. by apply Hsrc.
Qed.
End one_image_stored.

(** When every assignment is accepted, [patchify] returns what the
    assignments store, in grid order. *)
Lemma patchify_stores (images : Tensor4 A) (P n c h : nat) :
  shape4 images = (n, c, h, h) → length (data4 images) = n → 0 < P →
  (∀ image i j, image ∈ data4 images → i < P → j < P →
     length (patch_at image (h / P) i j) = h * h / P ^ 2 ∨
     length (patch_at image (h / P) i j) = 1) →
  patchify zero images P
  = Ok ((λ image,
          (λ k, stored zero (h * h / P ^ 2)
                  (patch_at image (h / P) (k / P) (k `mod` P)))
            <$> seq 0 (P ^ 2)) <$> data4 images).
Proof.
  intros Hshape Hn HP Hfit. unfold patchify. rewrite Hshape.
  assert (P ^ 2 = P * P) as HPP by (simpl; lia).
  rewrite Nat.eqb_refl. unfold assert. rewrite bind_Ok.
  rewrite !pyfloordiv_ok, !bind_Ok by nia.
  set (D := h * h / P ^ 2). set (s := h / P).
  set (zrow := replicate (P ^ 2) (replicate D zero)).
  set (row := λ image, (λ k, stored zero D
                          (patch_at image s (k / P) (k `mod` P)))
                         <$> seq 0 (P ^ 2)).
  pose (f := λ a, (row <$> take a (data4 images)) ++ replicate (n - a) zrow).
  replace (zeros3 zero n (P ^ 2) D) with (f 0)
    by (unfold f, zeros3; simpl; by rewrite Nat.sub_0_r).
  replace (row <$> data4 images)
    with (f (length (enumerate (data4 images)))).
  2:{ unfold f. rewrite length_enumerate, Hn, Nat.sub_diag. simpl.
      rewrite app_nil_r, take_ge by lia. done. }
  apply foldM_fun. intros a [idx image] Hx.
  apply lookup_enumerate in Hx as [-> Himage].
  assert (a < n) as Ha by (rewrite <- Hn; by eapply lookup_lt_Some).
  unfold f. replace (n - a) with (S (n - S a)) by lia.
  cbn [replicate].
  rewrite (take_S_r _ _ image), fmap_app by done. cbn [fmap list_fmap].
  rewrite <- app_assoc. cbn [app]. unfold zrow, row. rewrite HPP.
  apply (loop_i_stored
           (λ k, stored zero D (patch_at image s (k / P) (k `mod` P))) P D).
  - rewrite length_fmap, length_take. lia.
  - intros i j Hi Hj. destruct (cell_index P i j Hj) as [-> ->].
    apply copy_into_stored, Hfit; [|done..].
    by eapply list_elem_of_lookup_2.
Qed.

(** Every patch of a well-formed image has [c * s * s] elements, whether
    or not the grid size divides the side. *)
Lemma length_patch_in_grid (image : list (list (list A))) c h P i j :
  length image = c →
  Forall (λ chan, length chan = h ∧
                  Forall (λ row : list A, length row = h) chan) image →
  0 < P → i < P → j < P →
  length (patch_at image (h / P) i j) = c * (h / P * (h / P)).
Proof.
  intros Hc Himage HP Hi Hj.
  pose proof (Nat.Div0.mul_div_le h P) as Hle.
  apply (length_patch_at image c h h); [done..|nia|nia].
Qed.

Lemma setitem2_shape (patches : list (list (list A))) idx k src patches'
    n m d :
  patches_shape n m d patches →
  setitem2 patches idx k src = Ok patches' → patches_shape n m d patches'.
Proof.
  intros [Hn Hall]. unfold setitem2.
  destruct (patches !! idx) as [row|] eqn:Hrow; [|done].
  destruct (row !! k) as [slot|] eqn:Hslot; [|done].
  destruct (copy_into slot src) as [new|] eqn:Hnew; [|done].
  rewrite bind_Ok. intros [= <-].
  destruct (Forall_lookup_1 _ _ _ _ Hall Hrow) as [Hm Hslots].
  pose proof (Forall_lookup_1 _ _ _ _ Hslots Hslot) as Hd.
  apply copy_into_length in Hnew. split.
  - by rewrite length_insert.
  - apply Forall_insert; [done|]. split.
    + by rewrite length_insert.
    + apply Forall_insert; [done|]. simpl in *. congruence.
Qed.

End patchify_more.

(** X1.  Whatever [patchify] returns has the shape of the buffer it
    allocated, (n, P², h·w // P²): no assignment changes a size. *)
Theorem patchify_result_shape {A : Type} (zero : A) (images : Tensor4 A)
    (P : nat) (patches : list (list (list A))) (n c h w : nat) :
  shape4 images = (n, c, h, w) →
  patchify zero images P = Ok patches →
  patches_shape n (P ^ 2) (h * w / P ^ 2) patches.
Proof.
  intros Hshape. unfold patchify. rewrite Hshape.
  destruct (assert (h =? w)) as [[]|]; [|done]. rewrite bind_Ok.
  destruct (pyfloordiv (h * w) (P ^ 2)) as [D|] eqn:HD; [|done].
  rewrite bind_Ok.
  assert (D = h * w / P ^ 2) as ->.
  { unfold pyfloordiv in HD. destruct (P ^ 2 =? 0); [done|].
    by injection HD as <-. }
  destruct (pyfloordiv h P) as [s|]; [|done]. rewrite bind_Ok.
  set (I := patches_shape n (P ^ 2) (h * w / P ^ 2)).
  intros H. eapply (foldM_preserves I) in H; [done| |].
  - intros p [idx image] p' Hp Hbody.
    eapply (foldM_preserves I) in Hbody; [done| |done].
    intros p1 i p1' Hp1 Hbody1.
    eapply (foldM_preserves I) in Hbody1; [done| |done].
    intros p2 j p2' Hp2 Hset. by eapply setitem2_shape.
  - unfold I, patches_shape, zeros3. split; [by rewrite length_replicate|].
    apply Forall_replicate. split; [by rewrite length_replicate|].
    apply Forall_replicate. by rewrite length_replicate.
Qed.

Lemma patchify_result_shape_witness :
  patches_shape 1 (2 ^ 2) (3 * 3 / 2 ^ 2)
    [[[1; 1]; [2; 2]; [4; 4]; [5; 5]]].
Proof.
  apply (patchify_result_shape 0 gray3 2 _ 1 1 3 3); reflexivity.
Defined.

(** X2.  On a well-formed non-empty square batch with a positive grid
    size, [patchify] returns exactly when the patch size [c·s²]
    ([s = h // P]) is the slot size [h² // P²] or is 1 (a one-element patch
    is broadcast over its slot); otherwise the first assignment raises. *)
Theorem patchify_accepts_iff {A : Type} (zero : A) (images : Tensor4 A)
    (P n c h : nat) :
  wf_Tensor4 images → shape4 images = (S n, c, h, h) → 0 < P →
  patchify zero images P
  = if decide (c * (h / P * (h / P)) = h * h / P ^ 2 ∨
               c * (h / P * (h / P)) = 1)
    then Ok ((λ image,
               (λ k, stored zero (h * h / P ^ 2)
                       (patch_at image (h / P) (k / P) (k `mod` P)))
                 <$> seq 0 (P ^ 2)) <$> data4 images)
    else Err RuntimeError.
Proof.
  intros Hwf Hshape HP. unfold wf_Tensor4 in Hwf. rewrite Hshape in Hwf.
  destruct Hwf as [Hn Hdata].
  destruct (decide _) as [Hfit|Hno].
  - apply (patchify_stores zero images P (S n) c h); [done..|].
    intros image i j Himage Hi Hj.
    rewrite Forall_forall in Hdata. destruct (Hdata image Himage) as [Hc Hch].
    by rewrite (length_patch_in_grid image c h P i j).
  - destruct (data4 images) as [|image rest] eqn:Hd; [done|].
    apply Forall_cons in Hdata as [[Hlen Hchan] _].
    assert (P ^ 2 = P * P) as HPP by (simpl; lia).
    unfold patchify. rewrite Hshape, Nat.eqb_refl. unfold assert.
    rewrite bind_Ok, !pyfloordiv_ok, !bind_Ok, Hd by nia.
    destruct P as [|P']; [lia|].
    unfold enumerate. cbn [length seq zip zip_with foldM].
    assert (setitem2 (zeros3 zero (S n) (S P' ^ 2) (h * h / S P' ^ 2)) 0
              (0 * S P' + 0) (patch_at image (h / S P') 0 0)
            = Err RuntimeError) as ->; [|done].
    unfold setitem2, zeros3. rewrite HPP at 1.
    cbn [Nat.mul Nat.add replicate lookup list_lookup].
    rewrite copy_into_refused; [done|..].
    + rewrite length_replicate.
      rewrite (length_patch_in_grid image c h (S P') 0 0) by (done || lia).
      tauto.
    + rewrite (length_patch_in_grid image c h (S P') 0 0) by (done || lia).
      tauto.
Qed.

Lemma patchify_accepts_iff_witness :
  patchify 0 gray3 2
  = if decide (1 * (3 / 2 * (3 / 2)) = 3 * 3 / 2 ^ 2 ∨
               1 * (3 / 2 * (3 / 2)) = 1)
    then Ok ((λ image,
               (λ k, stored 0 (3 * 3 / 2 ^ 2)
                       (patch_at image (3 / 2) (k / 2) (k `mod` 2)))
                 <$> seq 0 (2 ^ 2)) <$> data4 gray3)
    else Err RuntimeError.
Proof.
  apply (patchify_accepts_iff 0 gray3 2 0 1 3).
  - cbv. repeat (split || constructor).
  - reflexivity.
  - lia.
Defined.

Lemma flatten_one {A : Type} (m : list (list A)) : flatten [m] = mjoin m.
Proof. unfold flatten. csimpl. apply app_nil_r. Qed.

Lemma lookup_slice {B : Type} (a b i : nat) (l : list B) :
  i < b - a → slice a b l !! i = l !! (a + i).
Proof.
  intros Hi. unfold slice. by rewrite lookup_take_lt, lookup_drop.
Qed.

(** X3.  For one channel and a grid size that divides the side, element
    [r·s + q] of the patch at sequence position [i·P + j] of image [idx] is
    the pixel at row [i·s + r] and column [j·s + q] of that image; and
    every pixel [(y, x)] of the image is found in the patches, at position
    [(y // s)·P + x // s], element [(y mod s)·s + x mod s]. *)
Theorem patchify_pixels {A : Type} (zero : A) (images : Tensor4 A)
    (P n h : nat) :
  wf_Tensor4 images → shape4 images = (n, 1, h, h) →
  0 < P → h `mod` P = 0 →
  ∃ patches,
    patchify zero images P = Ok patches ∧
    (∀ idx i j r q,
       idx < n → i < P → j < P → r < h / P → q < h / P →
       is_Some (pixel images idx 0 (i * (h / P) + r) (j * (h / P) + q)) ∧
       entry3 patches idx (i * P + j) (r * (h / P) + q)
       = pixel images idx 0 (i * (h / P) + r) (j * (h / P) + q)) ∧
    (∀ idx y x,
       idx < n → y < h → x < h →
       entry3 patches idx (y / (h / P) * P + x / (h / P))
                          (y `mod` (h / P) * (h / P) + x `mod` (h / P))
       = pixel images idx 0 y x).
Proof.
  intros Hwf Hshape HP Hdiv. eexists. split.
  { by apply (patchify_one_channel zero images P n h). }
  unfold wf_Tensor4 in Hwf. rewrite Hshape in Hwf.
  destruct Hwf as [Hn Hdata].
  assert (h = P * (h / P)) as Hh by (apply Nat.Div0.div_exact; lia).
  set (s := h / P) in *.
  match goal with |- ?G1 ∧ _ => assert G1 as Hpix end; [|split; [done|]].
  2:{ intros idx y x Hidx Hy Hx.
      assert (0 < s) as Hs by nia.
      assert (y / s < P) by (apply Nat.Div0.div_lt_upper_bound; nia).
      assert (x / s < P) by (apply Nat.Div0.div_lt_upper_bound; nia).
      assert (y `mod` s < s) by (apply Nat.mod_upper_bound; lia).
      assert (x `mod` s < s) by (apply Nat.mod_upper_bound; lia).
      destruct (Hpix idx (y / s) (x / s) (y `mod` s) (x `mod` s))
        as [_ ->]; try done.
      f_equal.
      - rewrite (Nat.div_mod_eq y s) at 3. lia.
      - rewrite (Nat.div_mod_eq x s) at 3. lia. }
  intros idx i j r q Hidx Hi Hj Hr Hq.
  destruct (lookup_lt_is_Some_2 (data4 images) idx) as [image Himage];
    [lia|].
  destruct (Forall_lookup_1 _ _ _ _ Hdata Himage) as [Hc Hchans].
  destruct image as [|chan [|? ?]]; [done| |done].
  apply Forall_cons in Hchans as [[Hrows Hcols] _].
  destruct (lookup_lt_is_Some_2 chan (i * s + r)) as [row Hrow]; [nia|].
  pose proof (Forall_lookup_1 _ _ _ _ Hcols Hrow) as Hw. cbv beta in Hw.
  destruct (lookup_lt_is_Some_2 row (j * s + q)) as [x Hx]; [nia|].
  assert (pixel images idx 0 (i * s + r) (j * s + q) = Some x) as ->.
  { unfold pixel. rewrite Himage. cbn. rewrite Hrow. cbn. exact Hx. }
  split; [by eexists|].
  unfold entry3. rewrite list_lookup_fmap, Himage. cbn [fmap option_fmap option_map mbind option_bind].
  unfold patches_of. rewrite list_lookup_fmap.
  rewrite lookup_seq_lt by (simpl; nia). cbn [fmap option_fmap option_map mbind option_bind Nat.add].
  destruct (cell_index P i j Hj) as [-> ->].
  unfold patch_at, crop. cbn [fmap list_fmap]. rewrite flatten_one.
  apply (join_lookup_Some_same_length' s).
  - apply Forall_fmap, Forall_take, Forall_drop.
    eapply Forall_impl; [exact Hcols|]. intros l Hl. unfold compose.
    cbv beta in Hl. rewrite length_slice by nia. lia.
  - done.
  - exists (slice (j * s) ((j + 1) * s) row). split.
    + rewrite list_lookup_fmap, lookup_slice by lia. by rewrite Hrow.
    + rewrite lookup_slice by lia. done.
Qed.

Lemma patchify_pixels_witness :
  ∃ patches,
    patchify 0 gray4 2 = Ok patches ∧
    (∀ idx i j r q,
       idx < 1 → i < 2 → j < 2 → r < 4 / 2 → q < 4 / 2 →
       is_Some (pixel gray4 idx 0 (i * (4 / 2) + r) (j * (4 / 2) + q)) ∧
       entry3 patches idx (i * 2 + j) (r * (4 / 2) + q)
       = pixel gray4 idx 0 (i * (4 / 2) + r) (j * (4 / 2) + q)) ∧
    (∀ idx y x,
       idx < 1 → y < 4 → x < 4 →
       entry3 patches idx (y / (4 / 2) * 2 + x / (4 / 2))
                          (y `mod` (4 / 2) * (4 / 2) + x `mod` (4 / 2))
       = pixel gray4 idx 0 y x).
Proof.
  apply (patchify_pixels 0 gray4 2 1 4).
  - cbv. repeat (split || constructor).
  - reflexivity.
  - lia.
  - reflexivity.
Defined.

Lemma patchify_no_image {A : Type} (zero : A) (images : Tensor4 A)
    (P c h : nat) :
  shape4 images = (0, c, h, h) → data4 images = [] → 0 < P →
  patchify zero images P = Ok [].
Proof.
  intros Hshape Hdata HP.
  unfold patchify. rewrite Hshape, Nat.eqb_refl. unfold assert.
  assert (P ^ 2 ≠ 0) by (simpl; nia).
  rewrite bind_Ok, !pyfloordiv_ok, !bind_Ok, Hdata by lia.
  reflexivity.
Qed.

(** X4.  An empty batch of square images is accepted whatever its number
    of channels: no assignment is executed and the result is empty. *)
Theorem patchify_empty_batch {A : Type} (zero : A) (images : Tensor4 A)
    (P c h : nat) :
  wf_Tensor4 images → shape4 images = (0, c, h, h) → 0 < P →
  patchify zero images P = Ok [].
Proof.
  intros Hwf Hshape HP. unfold wf_Tensor4 in Hwf. rewrite Hshape in Hwf.
  destruct Hwf as [Hn _]. apply nil_length_inv in Hn.
  by apply (patchify_no_image zero images P c h).
Qed.

Lemma patchify_empty_batch_witness : patchify 0%R empty_batch 1 = Ok [].
Proof.
  apply (patchify_empty_batch 0%R empty_batch 1 3 2).
  - cbv. repeat (split || constructor).
  - reflexivity.
  - lia.
Defined.

(** ** [get_positional_embeddings] *)

Lemma entry_positional (L D : nat) (table : list (list R)) pos dim v :
  get_positional_embeddings L D = Ok table →
  entry table pos dim = Some v →
  pos < L ∧ dim < D ∧ v = pos_entry pos dim D.
Proof.
  rewrite get_positional_embeddings_ok. intros [= <-]. unfold entry.
  rewrite list_lookup_fmap.
  destruct (seq 0 L !! pos) as [i|] eqn:Hi; [|done].
  apply lookup_seq in Hi as [-> Hpos]. cbn.
  rewrite list_lookup_fmap.
  destruct (seq 0 D !! dim) as [j|] eqn:Hj; [|done].
  apply lookup_seq in Hj as [-> Hdim]. cbn. by intros [= <-].
Qed.

(** X5.  Every entry of the positional table lies between -1 and 1. *)
Theorem positional_entries_bounded (L D : nat) (table : list (list R))
    (pos dim : nat) (v : R) :
  get_positional_embeddings L D = Ok table →
  entry table pos dim = Some v →
  (-1 <= v <= 1)%R.
Proof.
  intros Htable Hv.
  destruct (entry_positional L D table pos dim v Htable Hv) as (_ & _ & ->).
  unfold pos_entry. destruct (Nat.even dim).
  - apply SIN_bound.
  - apply COS_bound.
Qed.

Lemma positional_entries_bounded_witness :
  ∃ table v,
    get_positional_embeddings 2 2 = Ok table ∧
    entry table 1 1 = Some v ∧
    (-1 <= v <= 1)%R.
Proof.
  eexists _, _. split; [vm_compute; reflexivity|]. split; [reflexivity|].
  eapply (positional_entries_bounded 2 2 _ 1 1).
  - vm_compute. reflexivity.
  - reflexivity.
Defined.

(** X6.  An even dimension and the odd dimension after it share one
    frequency: at every position their two entries are the sine and the
    cosine of the same angle, so their squares add up to 1. *)
Theorem positional_pairs (L D : nat) (table : list (list R))
    (pos dim : nat) (a b : R) :
  get_positional_embeddings L D = Ok table →
  Nat.even dim = true →
  entry table pos dim = Some a →
  entry table pos (dim + 1) = Some b →
  (a * a + b * b = 1)%R.
Proof.
  intros Htable Heven Ha Hb.
  destruct (entry_positional L D table pos dim a Htable Ha) as (_ & _ & ->).
  destruct (entry_positional L D table pos (dim + 1) b Htable Hb)
    as (_ & _ & ->).
  unfold pos_entry. rewrite Heven.
  replace (Nat.even (dim + 1)) with false
    by (rewrite Nat.add_1_r, Nat.even_succ, <- Nat.negb_even, Heven; done).
  replace (dim + 1 - 1) with dim by lia.
  apply sin2_cos2.
Qed.

Lemma positional_pairs_witness :
  ∃ table a b,
    get_positional_embeddings 2 2 = Ok table ∧
    entry table 1 0 = Some a ∧ entry table 1 (0 + 1) = Some b ∧
    (a * a + b * b = 1)%R.
Proof.
  eexists _, _, _. split; [vm_compute; reflexivity|].
  split; [reflexivity|]. split; [reflexivity|].
  eapply (positional_pairs 2 2 _ 1 0).
  - vm_compute. reflexivity.
  - reflexivity.
  - reflexivity.
  - reflexivity.
Defined.

(** X7.  Position 0 carries no frequency: its row is 0 in every even
    dimension and 1 in every odd dimension, whatever [D]. *)
Theorem positional_row_0 (L D : nat) (table : list (list R))
    (dim : nat) (v : R) :
  get_positional_embeddings L D = Ok table →
  entry table 0 dim = Some v →
  v = if Nat.even dim then 0%R else 1%R.
Proof.
  intros Htable Hv.
  destruct (entry_positional L D table 0 dim v Htable Hv) as (_ & _ & ->).
  unfold pos_entry. simpl INR.
  destruct (Nat.even dim).
  - replace (0 / Rpower 10000 (INR dim / INR D))%R with 0%R
      by (unfold Rdiv; ring).
    apply sin_0.
  - replace (0 / Rpower 10000 (INR (dim - 1) / INR D))%R with 0%R
      by (unfold Rdiv; ring).
    apply cos_0.
Qed.

Lemma positional_row_0_witness :
  ∃ table v,
    get_positional_embeddings 1 4 = Ok table ∧
    entry table 0 3 = Some v ∧
    v = if Nat.even 3 then 0%R else 1%R.
Proof.
  eexists _, _. split; [vm_compute; reflexivity|]. split; [reflexivity|].
  eapply (positional_row_0 1 4 _ 3).
  - vm_compute. reflexivity.
  - reflexivity.
Defined.

(** ** [MyMSA] *)

(** X8.  [MyMSA(d, n_heads)] raises a [ZeroDivisionError] for zero heads,
    fails its assertion when [n_heads] does not divide [d], and otherwise
    returns a module with [n_heads] query, key and value maps, each
    [d_head → d_head] with [n_heads · d_head = d]. *)
Theorem MyMSA_init_result (d nh : nat) (g : rng) :
  (nh = 0 → MyMSA.init d nh g = Err ZeroDivisionError) ∧
  (nh ≠ 0 → d `mod` nh ≠ 0 → MyMSA.init d nh g = Err AssertionError) ∧
  (nh ≠ 0 → d `mod` nh = 0 →
     ∃ m g', MyMSA.init d nh g = Ok (m, g') ∧ MyMSA_shaped d nh m).
Proof.
  split; [|split].
  - intros ->. apply MyMSA_init_zero_heads.
  - intros Hnh Hdiv. by apply MyMSA_init_indivisible.
  - intros Hnh Hdiv.
    destruct (MyMSA_init_ok d nh Hnh Hdiv g) as (m & g' & H & Hm).
    by exists m, g'.
Qed.

Lemma MyMSA_init_result_witness :
  (3 = 0 → MyMSA.init 8 3 (λ _, 0%R) = Err ZeroDivisionError) ∧
  (3 ≠ 0 → 8 `mod` 3 ≠ 0 → MyMSA.init 8 3 (λ _, 0%R) = Err AssertionError) ∧
  (3 ≠ 0 → 8 `mod` 3 = 0 →
     ∃ m g', MyMSA.init 8 3 (λ _, 0%R) = Ok (m, g') ∧ MyMSA_shaped 8 3 m).
Proof. exact (MyMSA_init_result 8 3 (λ _, 0%R)). Defined.

Lemma weighted_sum_bounds {X : Type} (g : X → R) (a b : R) (ws : list R)
    (x : list X) :
  Forall (λ w, 0 <= w)%R ws → Forall (λ t, a <= g t <= b)%R x →
  length ws = length x →
  (a * sum_R ws <= sum_R (zip_with (λ w t, w * g t) ws x) <= b * sum_R ws)%R.
Proof.
  intros Hws. revert x. induction Hws as [|w ws Hw _ IH]; intros x Hx Hlen.
  - simpl. lra.
  - destruct Hx as [|t x Ht Hx]; [done|]. simpl in Hlen.
    specialize (IH x Hx ltac:(lia)). simpl. nra.
Qed.

(** X9.  Attention averages: every coordinate of a head's output at a
    position lies between the smallest and the largest value of that
    coordinate among the value vectors of the sequence. *)
Theorem head_output_convex (m : MyMSA.t) (d nh L : nat)
    (x : list (list R)) (h p c : nat) (tq : list R) (a b : R) :
  MyMSA_shaped d nh m → shape2 L d x → h < nh →
  x !! p = Some tq → c < MyMSA.d_head m →
  (∀ tk, tk ∈ x → (a <= value m h tk !!! c <= b)%R) →
  ∃ o v, MyMSA.head_forward m x h = Ok o ∧
         entry o p c = Some v ∧ (a <= v <= b)%R.
Proof.
  intros Hm Hx Hh Htq Hc Hbounds.
  exists (head_output m h x <$> x),
         (sum_R (zip_with (λ w tv, w * value m h tv !!! c)%R
                   (attention_weights m h x tq) x)).
  split; [by apply (head_forward_ok m d nh Hm L)|]. split.
  - unfold entry. rewrite list_lookup_fmap, Htq. cbn.
    unfold head_output. rewrite list_lookup_fmap, lookup_seq_lt by done.
    done.
  - assert (x ≠ []) as Hne by (intros ->; done).
    pose proof (weighted_sum_bounds (λ tv, value m h tv !!! c) a b
                  (attention_weights m h x tq) x) as Hsum.
    unfold attention_weights in *.
    rewrite softmax_sum in Hsum by (by intros ?%fmap_nil_inv).
    rewrite !Rmult_1_r in Hsum. apply Hsum.
    + apply softmax_nonneg.
    + by apply Forall_forall.
    + by rewrite length_softmax, length_fmap.
Qed.

Lemma head_output_convex_witness :
  ∃ o v, MyMSA.head_forward msa22 [[1; 2]; [3; 4]]%R 0 = Ok o ∧
         entry o 1 0 = Some v ∧ (1 <= v <= 3)%R.
Proof.
  apply (head_output_convex msa22 2 2 2 [[1; 2]; [3; 4]]%R 0 1 0 [3; 4]%R).
  - vm_compute. repeat (split || constructor).
  - vm_compute. repeat (split || constructor).
  - lia.
  - reflexivity.
  - vm_compute. lia.
  - intros tk Htk. apply list_elem_of_In in Htk.
    destruct Htk as [<-|[<-|[]]]; vm_compute; lra.
Defined.

Lemma sum_R_Permutation (l l' : list R) : l ≡ₚ l' → sum_R l = sum_R l'.
Proof.
  induction 1 as [|x l l' _ IH|x y l|l l' l'' _ IH1 _ IH2]; simpl.
  - done.
  - by rewrite IH.
  - ring.
  - by rewrite IH1.
Qed.

Lemma softmax_zip {X : Type} (sc : X → R) (f : R → X → R) (x : list X) :
  zip_with f (softmax (sc <$> x)) x
  = (λ t, f (exp (sc t) / sum_R (exp <$> (sc <$> x)))%R t) <$> x.
Proof.
  unfold softmax. rewrite <- !list_fmap_compose.
  rewrite zip_with_fmap_l, zip_with_diag. done.
Qed.

Lemma head_output_Permutation (m : MyMSA.t) (h : nat)
    (x x' : list (list R)) (tq : list R) :
  x ≡ₚ x' → head_output m h x tq = head_output m h x' tq.
Proof.
  intros Hperm. unfold head_output, attention_weights.
  apply list_fmap_ext. intros _ c _.
  rewrite !softmax_zip.
  assert (sum_R (exp <$> ((λ tk, dot (query m h tq) (key m h tk)
                               / sqrt (INR (MyMSA.d_head m)))%R <$> x))
          = sum_R (exp <$> ((λ tk, dot (query m h tq) (key m h tk)
                               / sqrt (INR (MyMSA.d_head m)))%R <$> x')))
    as -> by (apply sum_R_Permutation; by rewrite Hperm).
  apply sum_R_Permutation. by rewrite Hperm.
Qed.

(** X10.  Attention has no notion of position: when the tokens of a
    sequence are permuted, the outputs are permuted in the same way.  One
    function [F] of the token gives the output row in both orders. *)
Theorem MyMSA_forward_permutation (m : MyMSA.t) (d nh L : nat)
    (x x' : list (list R)) :
  MyMSA_shaped d nh m → shape2 L d x → x ≡ₚ x' →
  ∃ F, MyMSA.forward m [x] = Ok [F <$> x] ∧
       MyMSA.forward m [x'] = Ok [F <$> x'].
Proof.
  intros Hm Hx Hperm.
  assert (shape2 L d x') as Hx'.
  { destruct Hx as [Hlen Hrows]. split.
    - by rewrite <- Hperm.
    - by rewrite <- Hperm. }
  exists (λ tq, mjoin ((λ h, head_output m h x tq)
                          <$> seq 0 (MyMSA.n_heads m))).
  split.
  - rewrite (MyMSA_forward_ok m d nh Hm 1 L); [done|lia|].
    split; [done|]. by constructor.
  - rewrite (MyMSA_forward_ok m d nh Hm 1 L); [|lia|].
    + cbn [fmap list_fmap]. do 2 f_equal. unfold attention_spec.
      apply list_fmap_ext. intros _ tq _. f_equal.
      apply list_fmap_ext. intros _ h _.
      symmetry. by apply head_output_Permutation.
    + split; [done|]. by constructor.
Qed.

Lemma MyMSA_forward_permutation_witness :
  ∃ F, MyMSA.forward msa22 [[[1; 2]; [3; 4]]%R]
       = Ok [F <$> [[1; 2]; [3; 4]]%R] ∧
       MyMSA.forward msa22 [tokens22_swapped] = Ok [F <$> tokens22_swapped].
Proof.
  apply (MyMSA_forward_permutation msa22 2 2 2).
  - vm_compute. repeat (split || constructor).
  - vm_compute. repeat (split || constructor).
  - apply perm_swap.
Defined.

(** ** Stacked blocks *)

Lemma blocks_loop_ok (gelu : R → R) (bs : list MyVitBlock.t)
    (hd nh r N L : nat) (xs : list (list (list R))) :
  Forall (MyVitBlock_shaped hd nh r) bs → 0 < N → shape3 N L hd xs →
  foldM (λ out block, MyVitBlock.forward gelu block out) xs bs
  = Ok (blocks_spec gelu bs <$> xs) ∧
  shape3 N L hd (blocks_spec gelu bs <$> xs).
Proof.
  intros Hbs HN. revert xs.
  induction Hbs as [|b bs Hb _ IH]; intros xs Hxs.
  - unfold blocks_spec. simpl. rewrite list_fmap_id. by split.
  - cbn [foldM].
    rewrite (block_forward_ok gelu b hd nh r Hb N L), bind_Ok by done.
    destruct (IH (block_spec gelu b <$> xs)) as [Hloop Hshape].
    { by apply (shape3_block_spec gelu b hd nh r Hb). }
    rewrite <- list_fmap_compose in Hloop, Hshape. by split.
Qed.

(** X11.  Blocks compose: on a batch, the loop over any list of blocks of
    one width returns, for every sequence [x] of the batch, the blocks
    applied one after the other to [x] alone, and the shape is kept. *)
Theorem blocks_loop (gelu : R → R) (bs : list MyVitBlock.t)
    (hd nh r N L : nat) (xs : list (list (list R))) (n : nat)
    (x : list (list R)) :
  Forall (MyVitBlock_shaped hd nh r) bs → shape3 N L hd xs →
  xs !! n = Some x →
  ∃ out,
    foldM (λ out block, MyVitBlock.forward gelu block out) xs bs = Ok out ∧
    shape3 N L hd out ∧
    out !! n = Some (foldl (λ x b, block_spec gelu b x) x bs).
Proof.
  intros Hbs Hxs Hx.
  assert (0 < N) as HN.
  { destruct Hxs as [<- _]. apply lookup_lt_Some in Hx. lia. }
  destruct (blocks_loop_ok gelu bs hd nh r N L xs Hbs HN Hxs)
    as [Hloop Hshape].
  exists (blocks_spec gelu bs <$> xs). split; [done|]. split; [done|].
  by rewrite list_lookup_fmap, Hx.
Qed.

Lemma blocks_loop_witness :
  ∃ out,
    foldM (λ out block, MyVitBlock.forward (λ a, a) block out) tokens22
          [block2; block2] = Ok out ∧
    shape3 1 2 2 out ∧
    out !! 0 = Some (foldl (λ x b, block_spec (λ a, a) b x)
                       [[1; 2]; [3; 4]]%R [block2; block2]).
Proof.
  apply (blocks_loop (λ a, a) [block2; block2] 2 1 2 1 2 tokens22 0).
  - vm_compute. repeat (split || constructor).
  - vm_compute. repeat (split || constructor).
  - reflexivity.
Defined.

(** ** [Myvit] *)

(** X12.  The constructor returns a model exactly when the patch count is
    not zero and divides the height and the width and, if there is at least
    one block, the head count is not zero and divides [hidden_d].  A zero
    patch count, and zero heads with at least one block, are a
    [ZeroDivisionError]. *)
Theorem Myvit_init_returns_iff (c h w P nb hd nh od : nat) (g : rng) :
  ((∃ m g', Myvit.init (c, h, w) P nb hd nh od g = Ok (m, g')) ↔
   P ≠ 0 ∧ h `mod` P = 0 ∧ w `mod` P = 0 ∧
   (nb = 0 ∨ (nh ≠ 0 ∧ hd `mod` nh = 0))) ∧
  (P = 0 → Myvit.init (c, h, w) P nb hd nh od g = Err ZeroDivisionError) ∧
  (P ≠ 0 → h `mod` P = 0 → w `mod` P = 0 → 0 < nb → nh = 0 →
     Myvit.init (c, h, w) P nb hd nh od g = Err ZeroDivisionError).
Proof.
  split; [split|split].
  - intros (m & g' & H).
    destruct (decide (P = 0)) as [->|HP];
      [by rewrite Myvit_init_zero_patches in H|].
    destruct (decide (h `mod` P = 0)) as [Hh|Hh];
      [|by rewrite Myvit_init_height in H].
    destruct (decide (w `mod` P = 0)) as [Hw|Hw];
      [|by rewrite Myvit_init_width in H].
    repeat split; try done.
    destruct (decide (nb = 0)) as [|Hnb]; [by left|]. right.
    destruct (decide (nh = 0)) as [->|Hnh].
    { rewrite (Myvit_init_heads _ _ _ _ _ _ _ _ _ ZeroDivisionError) in H;
        [done..|lia|apply MyMSA_init_zero_heads]. }
    split; [done|].
    destruct (decide (hd `mod` nh = 0)) as [|Hdiv]; [done|].
    rewrite (Myvit_init_heads _ _ _ _ _ _ _ _ _ AssertionError) in H;
      [done..|lia|]. intros g0. by apply MyMSA_init_indivisible.
  - intros (HP & Hh & Hw & Hheads).
    destruct (Myvit_init_ok c h w P nb hd nh od HP Hh Hw Hheads g)
      as (m & g' & H & _).
    by exists m, g'.
  - intros ->. apply Myvit_init_zero_patches.
  - intros HP Hh Hw Hnb ->. by apply Myvit_init_heads.
Qed.

Lemma Myvit_init_returns_iff_witness :
  ((∃ m g', Myvit.init (1, 28, 28) 7 2 8 0 10 (λ _, 0%R) = Ok (m, g')) ↔
   7 ≠ 0 ∧ 28 `mod` 7 = 0 ∧ 28 `mod` 7 = 0 ∧
   (2 = 0 ∨ (0 ≠ 0 ∧ 8 `mod` 0 = 0))) ∧
  (7 = 0 →
     Myvit.init (1, 28, 28) 7 2 8 0 10 (λ _, 0%R) = Err ZeroDivisionError) ∧
  (7 ≠ 0 → 28 `mod` 7 = 0 → 28 `mod` 7 = 0 → 0 < 2 → 0 = 0 →
     Myvit.init (1, 28, 28) 7 2 8 0 10 (λ _, 0%R) = Err ZeroDivisionError).
Proof. exact (Myvit_init_returns_iff 1 28 28 7 2 8 0 10 (λ _, 0%R)). Defined.

Lemma mapM_Err_head {B C : Type} (f : B → result C) (x : B) (l : list B) e :
  f x = Err e → mapM f (x :: l) = Err e.
Proof. intros H. cbn [mapM]. by rewrite H. Qed.

(** X13.  An empty batch of square images is refused: no sequence is
    built and [torch.stack] has nothing to stack. *)
Theorem forward_empty_batch_raises (gelu : R → R) (m : Myvit.t)
    (images : Tensor4 R) (c h : nat) :
  wf_Tensor4 images → shape4 images = (0, c, h, h) →
  Myvit.n_patches m ≠ 0 →
  Myvit.forward gelu m images = Err RuntimeError.
Proof.
  intros Hwf Hshape HP. unfold Myvit.forward, Myvit.embed.
  rewrite Hshape.
  unfold wf_Tensor4 in Hwf. rewrite Hshape in Hwf.
  destruct Hwf as [Hn _]. apply nil_length_inv in Hn.
  rewrite (patchify_no_image 0%R images _ c h) by (done || lia).
  reflexivity.
Qed.

Lemma forward_empty_batch_raises_witness :
  Myvit.forward (λ a, a) tiny empty_batch = Err RuntimeError.
Proof.
  apply (forward_empty_batch_raises (λ a, a) tiny empty_batch 3 2).
  - cbv. repeat (split || constructor).
  - reflexivity.
  - vm_compute. lia.
Defined.

(** X14.  A non-empty batch of one-channel square images whose patches do
    not have the number of pixels the linear embedding expects is refused
    by the embedding, before any block runs. *)
Theorem forward_wrong_size_raises (gelu : R → R) (m : Myvit.t)
    (images : Tensor4 R) (n h : nat) :
  wf_Tensor4 images → shape4 images = (S n, 1, h, h) →
  0 < Myvit.n_patches m → h `mod` Myvit.n_patches m = 0 →
  Linear.in_features (Myvit.linear_mapper m)
  ≠ h / Myvit.n_patches m * (h / Myvit.n_patches m) →
  Myvit.forward gelu m images = Err RuntimeError.
Proof.
  intros Hwf Hshape HP Hdiv Hin. unfold Myvit.forward, Myvit.embed.
  rewrite Hshape.
  rewrite (patchify_one_channel 0%R images _ (S n) h) by done.
  rewrite bind_Ok.
  unfold wf_Tensor4 in Hwf. rewrite Hshape in Hwf.
  destruct Hwf as [Hn Hdata].
  destruct (data4 images) as [|image rest]; [done|].
  apply Forall_cons in Hdata as [[Hc Hchans] _].
  set (P := Myvit.n_patches m) in *.
  assert (Linear.forward3 (Myvit.linear_mapper m)
            ((λ image, patches_of image (h / P) P) <$> image :: rest)
          = Err RuntimeError) as ->; [|done].
  cbn [fmap list_fmap]. apply mapM_Err_head.
  unfold patches_of.
  assert (P ^ 2 = S (P ^ 2 - 1)) as -> by (simpl; nia).
  cbn [seq fmap list_fmap]. apply mapM_Err_head.
  unfold Linear.forward. rewrite decide_False; [done|].
  rewrite Nat.Div0.div_0_l, Nat.Div0.mod_0_l.
  rewrite (length_patch_in_grid image 1 h P 0 0) by (done || lia). lia.
Qed.

Lemma forward_wrong_size_raises_witness :
  Myvit.forward (λ a, a) tiny images11 = Err RuntimeError.
Proof.
  apply (forward_wrong_size_raises (λ a, a) tiny images11 0 1).
  - cbv. repeat (split || constructor).
  - reflexivity.
  - vm_compute. lia.
  - reflexivity.
  - vm_compute. lia.
Defined.

Lemma exp_le_sum (a : R) (x : list R) :
  a ∈ x → (exp a <= sum_R (exp <$> x))%R.
Proof.
  induction 1 as [a x|a b x _ IH]; csimpl.
  - pose proof (sum_R_exp_nonneg x). lra.
  - pose proof (exp_pos b). lra.
Qed.

Lemma softmax_entries (x : list R) :
  Forall (λ p, 0 < p <= 1)%R (softmax x).
Proof.
  unfold softmax. apply Forall_fmap, Forall_fmap, Forall_forall.
  intros a Ha. unfold compose.
  pose proof (exp_pos a) as Hpos. pose proof (exp_le_sum a x Ha) as Hle.
  split.
  - apply Rdiv_lt_0_compat; lra.
  - apply Rmult_le_reg_r with (r := sum_R (exp <$> x)); [lra|].
    unfold Rdiv. rewrite Rmult_assoc, Rinv_l by lra. lra.
Qed.



(** *** The forward pass, image by image *)

Section forward_closed.
Variable gelu : R → R.
Variables (m : Myvit.t) (P hd nh od h N : nat) (images : Tensor4 R).
Hypothesis Hm : Myvit_shaped (1, h, h) P hd nh od m.
Hypothesis Hwf : wf_Tensor4 images.
Hypothesis Hshape : shape4 images = (N, 1, h, h).
Hypothesis HN : 0 < N.

Lemma embed_closed :
  Myvit.embed m images = Ok (image_tokens m (h / P) <$> data4 images).
Proof.
  pose proof Hm as (_ & HPm & _ & _ & HP & Hdiv & _ & Hd & Hlm & Hct & Hpe & _).
  simpl in Hdiv.
  pose proof (shape3_patches m P hd nh od h N images Hm Hwf Hshape HN)
    as Hpatches.
  unfold Myvit.embed. rewrite Hshape, HPm.
  rewrite (patchify_one_channel 0%R images P N h) by done. rewrite bind_Ok.
  rewrite (Linear_forward3_ok _ hd N (P ^ 2)) by done. rewrite bind_Ok.
  rewrite mapM_getitem_all, bind_Ok.
  assert (length (data4 images) = N) as Hlen
    by (destruct Hpatches as [Hl _]; by rewrite length_fmap in Hl).
  rewrite stack_ok, bind_Ok.
  2:{ intros Hnil%(f_equal length). rewrite !length_fmap in Hnil.
      simpl in Hnil. lia. }
  f_equal. unfold tadd3.
  rewrite zip_with_replicate_r_eq by (by rewrite !length_fmap).
  rewrite <- !list_fmap_compose. apply list_fmap_ext. intros _ image _.
  unfold compose, flip, image_tokens. by rewrite HPm.
Qed.

Lemma forward_closed :
  Myvit.forward gelu m images
  = Ok (classify gelu m (h / P) <$> data4 images).
Proof.
  pose proof Hm as (_ & _ & _ & _ & _ & _ & _ & _ & _ & _ & _ & Hblocks & Hmlp).
  destruct (embed_ok m P hd nh od h N images Hm Hwf Hshape HN)
    as (seqs & He & Hseqs).
  rewrite embed_closed in He. injection He as <-.
  destruct (blocks_loop_ok gelu (Myvit.blocks m) hd nh _ N _ _
              Hblocks HN Hseqs) as [Hloop Hfinal].
  destruct (class_position_ok hd N _ _ Hfinal) as (cls & Hc & Hcls).
  assert (cls = (λ s : list (list R), s !!! 0)
                  <$> (blocks_spec gelu (Myvit.blocks m)
                         <$> (image_tokens m (h / P) <$> data4 images)))
    as ->.
  { rewrite (mapM_ok _ (λ s : list (list R), s !!! 0)) in Hc;
      [by injection Hc as <-|].
    destruct Hfinal as [_ Hfinal].
    eapply Forall_impl; [exact Hfinal|]. intros s [Hs _].
    apply getitem_lt. lia. }
  unfold Myvit.forward.
  rewrite embed_closed, bind_Ok, Hloop, bind_Ok, Hc, bind_Ok.
  rewrite (Linear_forward2_ok hd od N) by done. rewrite bind_Ok.
  f_equal. rewrite <- !list_fmap_compose. done.
Qed.

End forward_closed.

(** X16.  No image influences the result of another: the row the model
    returns for an image inside a batch is the row it returns for that image
    alone. *)
Theorem forward_batch_independent (gelu : R → R) (m : Myvit.t)
    (P hd nh od h N : nat) (images : Tensor4 R) (i : nat)
    (image : list (list (list R))) :
  Myvit_shaped (1, h, h) P hd nh od m →
  wf_Tensor4 images → shape4 images = (N, 1, h, h) →
  data4 images !! i = Some image →
  ∃ out y,
    Myvit.forward gelu m images = Ok out ∧
    out !! i = Some y ∧
    Myvit.forward gelu m (mkTensor4 (1, 1, h, h) [image]) = Ok [y].
Proof.
  intros Hm Hwf Hshape Himage.
  assert (0 < N) as HN.
  { unfold wf_Tensor4 in Hwf. rewrite Hshape in Hwf.
    destruct Hwf as [<- _]. apply lookup_lt_Some in Himage. lia. }
  exists (classify gelu m (h / P) <$> data4 images),
         (classify gelu m (h / P) image).
  split; [|split].
  - by apply (forward_closed gelu m P hd nh od h N).
  - by rewrite list_lookup_fmap, Himage.
  - rewrite (forward_closed gelu m P hd nh od h 1); try done; [|lia].
    unfold wf_Tensor4 in *. rewrite Hshape in Hwf. simpl.
    destruct Hwf as [_ Hdata]. split; [done|].
    constructor; [|constructor].
    by apply (Forall_lookup_1 _ _ _ _ Hdata Himage).
Qed.

Lemma forward_batch_independent_witness :
  ∃ out y,
    Myvit.forward (λ a, a) tiny images22 = Ok out ∧
    out !! 1 = Some y ∧
    Myvit.forward (λ a, a) tiny
      (mkTensor4 (1, 1, 2, 2) [[[[5; 6]; [7; 8]]]%R]) = Ok [y].
Proof.
  apply (forward_batch_independent (λ a, a) tiny 1 2 1 3 2 2 images22 1).
  - vm_compute. repeat (split || constructor).
  - vm_compute. repeat (split || constructor).
  - reflexivity.
  - reflexivity.
Defined.

(** X17.  Construction and forward pass fit together: every model the
    constructor returns for one channel and square images of side [h], with
    at least one class, accepts every non-empty batch of that size and
    returns one distribution over the classes per image. *)
Theorem constructed_model_classifies (gelu : R → R)
    (h P nb hd nh od : nat) (g : rng) (m : Myvit.t) (g' : rng)
    (images : Tensor4 R) (N : nat) :
  Myvit.init (1, h, h) P nb hd nh od g = Ok (m, g') →
  wf_Tensor4 images → shape4 images = (N, 1, h, h) → 0 < N → 0 < od →
  ∃ out,
    Myvit.forward gelu m images = Ok out ∧
    length out = N ∧
    Forall (λ row, length row = od ∧ sum_R row = 1%R) out.
Proof.
  intros Hinit Hwf Hshape HN Hod.
  apply Myvit_init_inv in Hinit as (Hm & _).
  pose proof Hm as (_ & _ & _ & _ & _ & _ & _ & _ & _ & _ & _ & _ & Hmlp).
  exists (classify gelu m (h / P) <$> data4 images).
  split; [|split].
  - by apply (forward_closed gelu m P hd nh od h N).
  - rewrite length_fmap. unfold wf_Tensor4 in Hwf. rewrite Hshape in Hwf.
    apply Hwf.
  - apply Forall_fmap, Forall_forall. intros image _.
    unfold compose, classify.
    assert (length (softmax (affine (Myvit.mlp m)
              (blocks_spec gelu (Myvit.blocks m)
                 (image_tokens m (h / P) image) !!! 0))) = od) as Hlen
      by (rewrite length_softmax; by eapply length_affine).
    split; [done|]. apply softmax_sum. intros Hnil.
    rewrite length_softmax, Hnil in Hlen. simpl in Hlen. lia.
Qed.

Lemma constructed_model_classifies_witness :
  ∃ m g',
    Myvit.init (1, 2, 2) 1 1 2 1 3 (λ _, 0%R) = Ok (m, g') ∧
    ∃ out,
      Myvit.forward (λ a, a) m images22 = Ok out ∧
      length out = 2 ∧
      Forall (λ row, length row = 3 ∧ sum_R row = 1%R) out.
Proof.
  eexists _, _. split; [vm_compute; reflexivity|].
  eapply (constructed_model_classifies (λ a, a) 2 1 1 2 1 3 (λ _, 0%R)).
  - vm_compute. reflexivity.
  - vm_compute. repeat (split || constructor).
  - reflexivity.
  - lia.
  - lia.
Defined.

(** X18.  Position 0 of every sequence that enters the blocks is the class
    token plus row 0 of the positional table: it is the same for every
    image of every batch. *)
Theorem embed_class_row (m : Myvit.t) (images : Tensor4 R)
    (seqs : list (list (list R))) (i : nat) (s : list (list R))
    (ct pe : list R) (cts pes : list (list R)) :
  Myvit.embed m images = Ok seqs → seqs !! i = Some s →
  Param.data (Myvit.class_token m) = ct :: cts →
  Param.data (Myvit.pos_embed m) = pe :: pes →
  s !! 0 = Some (tadd1 ct pe).
Proof.
  intros He Hs Hct Hpe.
  destruct (embed_steps m images seqs He) as (patches & tokens & _ & _ & ->).
  unfold step_positional, step_class_token in Hs.
  rewrite <- list_fmap_compose, list_lookup_fmap in Hs.
  destruct (tokens !! i) as [tok|]; [|done].
  injection Hs as <-. unfold compose. by rewrite Hct, Hpe.
Qed.

Lemma embed_class_row_witness :
  ∃ seqs s,
    Myvit.embed tiny images22 = Ok seqs ∧ seqs !! 1 = Some s ∧
    s !! 0 = Some (tadd1 [0; 0]%R [0; 1]%R).
Proof.
  eexists _, _. split; [reflexivity|]. split; [reflexivity|].
  eapply (embed_class_row tiny images22 _ 1); reflexivity.
Defined.

Lemma mapM_ext {B C : Type} (f g : B → result C) (l : list B) :
  (∀ x, x ∈ l → f x = g x) → mapM f l = mapM g l.
Proof.
  induction l as [|x l IH]; intros Hfg; [done|]. cbn [mapM].
  rewrite (Hfg x) by (by left).
  rewrite IH; [done|]. intros y Hy. apply Hfg. by right.
Qed.

Lemma mapM_fmap_arg {B B' C : Type} (f : B' → result C) (g : B → B')
    (l : list B) :
  mapM f (g <$> l) = mapM (λ x, f (g x)) l.
Proof.
  induction l as [|x l IH]; [done|]. cbn [fmap list_fmap mapM].
  f_equal. change (list_fmap B B' g l) with (g <$> l). by rewrite IH.
Qed.

Lemma slice_take {B : Type} (a b w : nat) (l : list B) :
  b ≤ w → slice a b (take w l) = slice a b l.
Proof.
  intros Hb. unfold slice. apply list_eq. intros i.
  destruct (decide (i < b - a)) as [Hi|Hi].
  - rewrite !lookup_take_lt, !lookup_drop by done.
    by rewrite lookup_take_lt by lia.
  - by rewrite !lookup_take_ge by lia.
Qed.

(** X19.  Attention never reads a feature beyond [n_heads · d_head]: wider
    tokens are accepted and everything after the first [n_heads · d_head]
    features of a token is ignored. *)
Theorem MyMSA_reads_first_features (m : MyMSA.t) (w : nat)
    (xs : list (list (list R))) :
  MyMSA.n_heads m * MyMSA.d_head m ≤ w →
  MyMSA.forward m ((λ x : list (list R), take w <$> x) <$> xs)
  = MyMSA.forward m xs.
Proof.
  intros Hw. unfold MyMSA.forward. rewrite mapM_fmap_arg.
  f_equal. apply mapM_ext. intros x _. f_equal.
  apply mapM_ext. intros h Hh.
  apply list_elem_of_lookup in Hh as [k Hk].
  apply lookup_seq in Hk as [-> Hk]. cbn [Nat.add].
  unfold MyMSA.head_forward.
  rewrite <- list_fmap_compose.
  rewrite (list_fmap_ext
             (slice (k * MyMSA.d_head m) ((k + 1) * MyMSA.d_head m) ∘ take w)
             (slice (k * MyMSA.d_head m) ((k + 1) * MyMSA.d_head m)) x);
    [done|].
  intros _ token _. unfold compose. apply slice_take. nia.
Qed.

Lemma MyMSA_reads_first_features_witness :
  MyMSA.forward msa22
    ((λ x : list (list R), take 2 <$> x) <$> [[[1; 2; 9]; [3; 4; 9]]]%R)
  = MyMSA.forward msa22 [[[1; 2; 9]; [3; 4; 9]]]%R.
Proof.
  apply (MyMSA_reads_first_features msa22 2). vm_compute. lia.
Defined.

(** ** The loss computed by [main] *)

Lemma ln_le_mono (x y : R) : (0 < x)%R → (x <= y)%R → (ln x <= ln y)%R.
Proof.
  intros Hx [Hlt| ->]; [|lra]. left. by apply ln_increasing.
Qed.

Lemma exp_le_mono (x y : R) : (x <= y)%R → (exp x <= exp y)%R.
Proof. intros [Hlt| ->]; [|lra]. left. by apply exp_increasing. Qed.

Lemma exp_ge_1 (x : R) : (0 <= x)%R → (1 <= exp x)%R.
Proof. intros Hx. pose proof (exp_ineq1_le x). lra. Qed.

Lemma sum_exp_ge_length (p : list R) :
  Forall (λ a, 0 <= a)%R p → (INR (length p) <= sum_R (exp <$> p))%R.
Proof.
  induction 1 as [|a p Ha _ IH]; [simpl; lra|].
  cbn [length]. rewrite S_INR. csimpl. pose proof (exp_ge_1 a Ha). lra.
Qed.

Lemma sum_exp_lower (p : list R) (t : nat) :
  Forall (λ a, 0 <= a)%R p → t < length p →
  (exp (p !!! t) + (INR (length p) - 1) <= sum_R (exp <$> p))%R.
Proof.
  intros Hp. revert t. induction Hp as [|a p Ha Hp IH]; intros t Ht.
  - simpl in Ht. lia.
  - cbn [length]. rewrite S_INR. csimpl. destruct t as [|t].
    + cbn. pose proof (sum_exp_ge_length p Hp). lra.
    + cbn [length] in Ht. specialize (IH t ltac:(lia)).
      change ((a :: p) !!! S t) with (p !!! t).
      pose proof (exp_ge_1 a Ha). lra.
Qed.

(** The cross-entropy term of a row of probabilities. *)
Lemma cross_entropy_row_bound (p : list R) (t : nat) (c : R) :
  Forall (λ a, 0 < a <= 1)%R p →
  cross_entropy_row p t = Some c →
  (ln (1 + (INR (length p) - 1) * exp (-1)) <= c)%R.
Proof.
  intros Hp. unfold cross_entropy_row.
  destruct (decide (t < length p)) as [Ht|]; [|done]. intros [= <-].
  assert (Forall (λ a, 0 <= a)%R p) as Hp0.
  { eapply Forall_impl; [exact Hp|]. intros a Ha. cbv beta in Ha. lra. }
  pose proof (sum_exp_lower p t Hp0 Ht) as Hsum.
  pose proof (Forall_lookup_total _ p t Hp Ht) as Hpt. cbv beta in Hpt.
  set (pt := p !!! t) in *.
  assert (1 <= INR (length p))%R as HK.
  { destruct p; [simpl in Ht; lia|]. cbn [length]. rewrite S_INR.
    pose proof (pos_INR (length p)). lra. }
  set (K1 := (INR (length p) - 1)%R) in *.
  assert (0 <= K1)%R as HK1 by (unfold K1; lra).
  pose proof (exp_pos pt) as Hept. pose proof (exp_pos (- pt)) as Hemt.
  pose proof (exp_pos (-1)) as Hem1.
  assert (exp (-1) <= exp (- pt))%R as Hmono by (apply exp_le_mono; lra).
  assert (exp pt * exp (- pt) = 1)%R as Hinv
    by (rewrite <- exp_plus, Rplus_opp_r; apply exp_0).
  transitivity (ln (exp pt + K1) - pt)%R.
  - replace (ln (exp pt + K1) - pt)%R
      with (ln ((exp pt + K1) * exp (- pt)))%R.
    2:{ rewrite ln_mult by lra. rewrite ln_exp. lra. }
    apply ln_le_mono; [nra|]. nra.
  - assert (ln (exp pt + K1) <= ln (sum_R (exp <$> p)))%R
      by (apply ln_le_mono; lra).
    lra.
Qed.

Lemma mean_lower_bound (b : R) (l : list R) :
  l ≠ [] → Forall (λ c, b <= c)%R l → (b <= sum_R l / INR (length l))%R.
Proof.
  intros Hne Hl.
  assert (b * INR (length l) <= sum_R l)%R as Hsum.
  { clear Hne. induction Hl as [|c l Hc _ IH]; [simpl; lra|].
    cbn [length]. rewrite S_INR. simpl. lra. }
  assert (0 < INR (length l))%R as Hpos.
  { destruct l; [done|]. cbn [length]. rewrite S_INR.
    pose proof (pos_INR (length l)). lra. }
  apply Rmult_le_reg_r with (r := INR (length l)); [done|].
  unfold Rdiv. rewrite Rmult_assoc, Rinv_l by lra. lra.
Qed.

Lemma forward_rows (gelu : R → R) (m : Myvit.t) (images : Tensor4 R)
    (out : list (list R)) (hd K : nat) :
  Linear_shaped hd K (Myvit.mlp m) →
  Myvit.forward gelu m images = Ok out →
  Forall (λ row, length row = K ∧ Forall (λ p, 0 < p <= 1)%R row) out.
Proof.
  intros Hmlp. unfold Myvit.forward.
  destruct (Myvit.embed m images) as [seqs|]; [|done]. rewrite bind_Ok.
  destruct (foldM _ seqs (Myvit.blocks m)) as [final|]; [|done].
  rewrite bind_Ok.
  destruct (mapM _ final) as [cls|]; [|done]. rewrite bind_Ok.
  destruct (Linear.forward2 (Myvit.mlp m) cls) as [logits|] eqn:Hl; [|done].
  rewrite bind_Ok. intros [= <-].
  apply mapM_Ok_inv in Hl.
  apply Forall_fmap. unfold compose.
  induction Hl as [|v y cls logits Hy _ IH]; constructor; [|done].
  split; [|apply softmax_entries].
  rewrite length_softmax. unfold Linear.forward in Hy.
  destruct (decide _); [|done]. injection Hy as <-.
  by apply (length_affine hd K).
Qed.

Lemma CrossEntropyLoss_bound (K : nat) (input : list (list R))
    (target : list nat) (loss : R) :
  Forall (λ row, length row = K ∧ Forall (λ p, 0 < p <= 1)%R row) input →
  target ≠ [] →
  CrossEntropyLoss input target = Some loss →
  (ln (1 + (INR K - 1) * exp (-1)) <= loss)%R.
Proof.
  intros Hrows Hy Hloss. unfold CrossEntropyLoss in Hloss.
  destruct (decide (length input = length target)) as [Hlen|]; [|done].
  destruct (mapM _ (zip input target)) as [losses|] eqn:Hl; [|done].
  injection Hloss as <-. apply mapM_Some in Hl.
  apply mean_lower_bound.
  - intros ->. apply Forall2_nil_inv_r in Hl.
    destruct input, target; done.
  - clear Hy Hlen. revert target losses Hl.
    induction Hrows as [|row input [Hrow Hp] _ IH]; intros target losses Hl.
    + apply Forall2_nil_inv_l in Hl as ->. constructor.
    + destruct target as [|t target].
      { apply Forall2_nil_inv_l in Hl as ->. constructor. }
      cbn [zip zip_with] in Hl.
      apply Forall2_cons_inv_l in Hl as (c & losses' & Hc & Hl & ->).
      constructor; [|by eapply IH].
      rewrite <- Hrow. by apply (cross_entropy_row_bound row t).
Qed.

Lemma foldl_None {A B : Type} (f : A → B → option A) (l : list B) :
  foldl (λ acc b, a ← acc; f a b) None l = None.
Proof. by induction l. Qed.

(** X20.  The model ends with a softmax and the criterion applies another:
    for every batch and every labelling for which [main] obtains a loss,
    that loss is at least [ln(1 + (K - 1)/e)], [K] the number of classes.
    It cannot approach 0 when [K > 1]. *)
Theorem batch_loss_lower_bound (gelu : R → R) (m : Myvit.t) (hd K : nat)
    (x : Tensor4 R) (y : list nat) (loss : R) :
  Linear_shaped hd K (Myvit.mlp m) →
  batch_loss gelu m x y = Some loss → y ≠ [] →
  (ln (1 + (INR K - 1) * exp (-1)) <= loss)%R.
Proof.
  intros Hmlp Hloss Hy. unfold batch_loss in Hloss.
  destruct (Myvit.forward gelu m x) as [y_hat|] eqn:Hf; [|done].
  apply (CrossEntropyLoss_bound K y_hat y); [|done..].
  by apply (forward_rows gelu m x y_hat hd K).
Qed.

Lemma batch_loss_lower_bound_witness :
  ∃ loss,
    batch_loss (λ a, a) no_blocks images11 [1] = Some loss ∧
    (ln (1 + (INR 2 - 1) * exp (-1)) <= loss)%R.
Proof.
  eexists. split; [reflexivity|].
  eapply (batch_loss_lower_bound (λ a, a) no_blocks 1 2 images11 [1]).
  - vm_compute. repeat (split || constructor).
  - reflexivity.
  - done.
Defined.

Lemma test_loss_acc (gelu : R → R) (m : Myvit.t) (hd K n : nat)
    (l : list (Tensor4 R * list nat)) (a L : R) :
  Linear_shaped hd K (Myvit.mlp m) →
  (0 < INR n)%R →
  Forall (λ batch, batch.2 ≠ []) l →
  foldl (λ acc batch,
           test_loss ← acc;
           loss ← batch_loss gelu m batch.1 batch.2;
           Some (test_loss + loss / INR n)%R)
        (Some a) l = Some L →
  (a + INR (length l) * (ln (1 + (INR K - 1) * exp (-1)) / INR n) <= L)%R.
Proof.
  intros Hmlp Hn Hl. revert a.
  induction Hl as [|[x y] l Hy _ IH]; intros a HL.
  - simpl in *. injection HL as <-. lra.
  - cbn [foldl] in HL. cbn [mbind option_bind fst snd] in HL.
    destruct (batch_loss gelu m x y) as [loss|] eqn:Hloss.
    2:{ cbn in HL. rewrite foldl_None in HL. done. }
    cbn [mbind option_bind] in HL. apply IH in HL.
    assert (ln (1 + (INR K - 1) * exp (-1)) <= loss)%R as Hb.
    { unfold batch_loss in Hloss.
      destruct (Myvit.forward gelu m x) as [y_hat|] eqn:Hf; [|done].
      apply (CrossEntropyLoss_bound K y_hat y); [|done..].
      by apply (forward_rows gelu m x y_hat hd K). }
    cbn [length]. rewrite S_INR.
    assert (0 < / INR n)%R as Hinv by by apply Rinv_0_lt_compat.
    unfold Rdiv in *.
    assert (ln (1 + (INR K - 1) * exp (-1)) * / INR n <= loss * / INR n)%R
      by (apply Rmult_le_compat_r; lra).
    lra.
Qed.

(** X21.  The test loss that [main] prints is the mean of the batch losses,
    so it is at least [ln(1 + (K - 1)/e)] as well, whatever the parameters
    and the data: about 1.46 for the ten classes of [main]. *)
Theorem test_loss_lower_bound (gelu : R → R) (m : Myvit.t) (hd K : nat)
    (test_loader : list (Tensor4 R * list nat)) (L : R) :
  Linear_shaped hd K (Myvit.mlp m) →
  test_loader ≠ [] →
  Forall (λ batch, batch.2 ≠ []) test_loader →
  test_loss gelu m test_loader = Some L →
  (ln (1 + (INR K - 1) * exp (-1)) <= L)%R.
Proof.
  intros Hmlp Hne Hl HL.
  assert (0 < INR (length test_loader))%R as Hn.
  { destruct test_loader; [done|]. cbn [length]. rewrite S_INR.
    pose proof (pos_INR (length test_loader)). lra. }
  apply (test_loss_acc gelu m hd K _ _ _ _ Hmlp Hn Hl) in HL.
  unfold Rdiv in HL.
  rewrite (Rmult_comm (ln _)), <- Rmult_assoc, Rinv_r, Rmult_1_l in HL
    by lra.
  lra.
Qed.

Lemma test_loss_lower_bound_witness :
  ∃ L,
    test_loss (λ a, a) no_blocks [(images11, [1]); (images11, [0])]
      = Some L ∧
    (ln (1 + (INR 2 - 1) * exp (-1)) <= L)%R.
Proof.
  eexists. split; [reflexivity|].
  eapply (test_loss_lower_bound (λ a, a) no_blocks 1 2
            [(images11, [1]); (images11, [0])]).
  - vm_compute. repeat (split || constructor).
  - done.
  - by repeat constructor.
  - reflexivity.
Defined.
